(** * terrain-mapper: the terrain id allocator [TerrainMap] and
      [Terrain.elevationMinMax]

    A shallow embedding of the class [TerrainMap] (a JavaScript [Map] whose
    [set], [add], [delete] and [clear] maintain the private cursor [#nextId])
    and of [Terrain.elevationMinMax], followed by the properties established
    about them; then [Terrain.nextColor], [Terrain.updateSource] and the
    local add and remove of [UniqueActiveEffect].

    Number model.  Ids are JavaScript numbers.  The allocator only ever
    computes with integers and with [NaN] (which [undefined + 1] yields), so a
    number is an exact integer or [NaN]; integer arithmetic is exact, which is
    what JavaScript does below 2^53; a theorem whose ids are not bounded by
    what it is about states the bound ([safe_integer]).  Elevations are
    doubles (IEEE 754 binary64), with the rounding addition of the machine. *)

From Stdlib Require Import ZArith List Bool Lia Strings.String.
From Stdlib Require Floats.
From Stdlib Require Import Sorting.Sorted Sorting.Permutation.
Import ListNotations.
Local Open Scope Z_scope.

(* ===================================================================== *)
(** ** The fragment of JavaScript the class relies on                     *)
(* ===================================================================== *)

Module Js.

(** A number: an integer or [NaN]. *)
Inductive num : Type :=
| Int (z : Z)
| NaN.

(** A value passed as an id: [null]/[undefined], a number as above, or
    anything else (a fraction such as 2.5, an infinity, a string, an object). *)
Inductive value : Type :=
| Undefined
| Number (n : num)
| Other.

(** SameValueZero, the comparison [Map] uses on keys: [NaN] equals [NaN]. *)
Definition same_value_zero (a b : num) : bool :=
  match a, b with
  | Int x, Int y => x =? y
  | NaN, NaN => true
  | _, _ => false
  end.

(** [a === b] on numbers: [NaN] is equal to nothing. *)
Definition strict_eq (a b : num) : bool :=
  match a, b with
  | Int x, Int y => x =? y
  | _, _ => false
  end.

(** [a !== b] where [a] is an array element, [undefined] ([None]) when the
    index is out of range. *)
Definition strict_neq (a : option num) (b : num) : bool :=
  match a with
  | Some a' => negb (strict_eq a' b)
  | None => true
  end.

(** [a + 1]; [undefined + 1] is [NaN]. *)
Definition plus1 (a : option num) : num :=
  match a with
  | Some (Int z) => Int (z + 1)
  | _ => NaN
  end.

(** [a - 1]. *)
Definition minus1 (a : num) : num :=
  match a with
  | Int z => Int (z - 1)
  | NaN => NaN
  end.

(** [a > b]: false as soon as one side is [NaN]. *)
Definition gt (a b : num) : bool :=
  match a, b with
  | Int x, Int y => y <? x
  | _, _ => false
  end.

(** [a ?? d]: [d] only when [a] is [null] or [undefined]. *)
Definition nullish {A : Type} (a : option A) (d : A) : A :=
  match a with
  | Some x => x
  | None => d
  end.

(** [Array.prototype.find]: the first element at which the callback, given
    the element and its index, is true; [undefined] when there is none. *)
Fixpoint find_from {A : Type} (p : A -> nat -> bool) (idx : nat) (l : list A)
  : option A :=
  match l with
  | [] => None
  | x :: l' => if p x idx then Some x else find_from p (S idx) l'
  end.

Definition Array_find {A : Type} (p : A -> nat -> bool) (l : list A) : option A :=
  find_from p 0%nat l.

(** The comparator [(a, b) => a - b] as [sort] reads it: [a] may stay before
    [b] when [a - b] is not positive; a [NaN] result counts as [+0]. *)
Definition stays_before (a b : num) : bool :=
  match a, b with
  | Int x, Int y => x <=? y
  | _, _ => true
  end.

(** [Array.prototype.sort] with that comparator, as a stable insertion sort
    on a key projection.  On integers every conforming sort returns the
    ascending order; with a [NaN] among the keys the comparator is not
    consistent and the order is the engine's choice: this model keeps the
    insertion sort's. *)
Fixpoint insert_by {A : Type} (key : A -> num) (x : A) (l : list A) : list A :=
  match l with
  | [] => [x]
  | y :: l' =>
      if stays_before (key y) (key x) then y :: insert_by key x l'
      else x :: y :: l'
  end.

Definition sort_by {A : Type} (key : A -> num) (l : list A) : list A :=
  fold_left (fun acc x => insert_by key x acc) l [].

Definition Array_sort (l : list num) : list num := sort_by (fun k => k) l.

(** *** [Map]: entries in insertion order, keys compared by SameValueZero *)

Section MapData.
Context {T : Type}.

Definition Map_has (k : num) (m : list (num * T)) : bool :=
  existsb (fun p => same_value_zero (fst p) k) m.

Fixpoint Map_get (k : num) (m : list (num * T)) : option T :=
  match m with
  | [] => None
  | (k', v) :: m' => if same_value_zero k' k then Some v else Map_get k m'
  end.

(** [Map.prototype.set]: an existing key keeps its place, a new one goes
    last. *)
Fixpoint Map_set (k : num) (v : T) (m : list (num * T)) : list (num * T) :=
  match m with
  | [] => [(k, v)]
  | (k', v') :: m' =>
      if same_value_zero k' k then (k', v) :: m'
      else (k', v') :: Map_set k v m'
  end.

Definition Map_delete (k : num) (m : list (num * T)) : list (num * T) :=
  filter (fun p => negb (same_value_zero (fst p) k)) m.
End MapData.

End Js.

Import Js.

(* ===================================================================== *)
(** ** class TerrainMap extends Map                                       *)
(* ===================================================================== *)

(** What the methods write on the console. *)
Inductive message : Type :=
| error_present                (* "Id already present and override is false." *)
| error_invalid (id : value)   (* "Id ${id} is invalid." *)
| warn_exceeds (id : num).     (* "Id ${id} exceeds maximum terrains (31)." *)

Section TerrainMap.
Context {T : Type}.

(** The object: the inherited map data and the private field [#nextId]. *)
Record TerrainMap : Type := mkTerrainMap {
  entries : list (num * T);
  nextId : num
}.

(** A method call: the value returned, the console output, the object
    afterwards. *)
Record result (R : Type) : Type := mkResult {
  returned : R;
  console : list message;
  state : TerrainMap
}.
Arguments mkResult {R}.
Arguments returned {R}.
Arguments console {R}.
Arguments state {R}.

(** [MAX_TERRAINS = Math.pow(2, 5) - 1] *)
Definition MAX_TERRAINS : Z := 2 ^ 5 - 1.

(** [new TerrainMap()] *)
Definition empty : TerrainMap := {| entries := []; nextId := Int 1 |}.

Definition size (c : TerrainMap) : num := Int (Z.of_nat (List.length (entries c))).

Definition keys (c : TerrainMap) : list num := map fst (entries c).

(** [this.has(id)]: keys are numbers, so no other value is ever found. *)
Definition has (c : TerrainMap) (id : value) : bool :=
  match id with
  | Number k => Map_has k (entries c)
  | _ => false
  end.

Definition get (c : TerrainMap) (k : num) : option T := Map_get k (entries c).

(** [#findNextId()] *)
Definition findNextId (c : TerrainMap) : num :=
  if strict_eq (size c) (minus1 (nextId c)) then plus1 (Some (nextId c))
  else
    let keys := Array_sort (keys c) in
    let lastConsecutiveKey :=
      Array_find
        (fun k idx => strict_neq (nth_error keys (idx + 1)) (plus1 (Some k)))
        keys in
    nullish (Some (plus1 lastConsecutiveKey)) (Int 1).

(** [if ( id > this.MAX_TERRAINS ) console.warn(...)] *)
Definition warn_if_exceeds (id : num) : list message :=
  if gt id (Int MAX_TERRAINS) then [warn_exceeds id] else [].

(** [super.set(id, terrain); this.#nextId = this.#findNextId();] *)
Definition store (c : TerrainMap) (id : num) (terrain : T) : TerrainMap :=
  let c1 := {| entries := Map_set id terrain (entries c); nextId := nextId c |} in
  {| entries := entries c1; nextId := findNextId c1 |}.

(** [id ??= this.#nextId] *)
Definition or_nextId (c : TerrainMap) (id : value) : value :=
  match id with
  | Undefined => Number (nextId c)
  | _ => id
  end.

(** [set(id, terrain, override = false)]; [None] is the bare [return]. *)
Definition set (c : TerrainMap) (id : value) (terrain : T) (override : bool)
  : result (option num) :=
  let id := or_nextId c id in
  if negb override && has c id then
    {| returned := None; console := [error_present]; state := c |}
  else
    match id with
    | Number (Int z) =>
        if z <? 1 then
          {| returned := None; console := [error_invalid id]; state := c |}
        else
          {| returned := Some (Int z);
             console := warn_if_exceeds (Int z);
             state := store c (Int z) terrain |}
    | _ => (* !Number.isInteger(id) *)
        {| returned := None; console := [error_invalid id]; state := c |}
    end.

(** [add(terrain)] *)
Definition add (c : TerrainMap) (terrain : T) : result num :=
  let id := nextId c in
  {| returned := id;
     console := warn_if_exceeds id;
     state := store c id terrain |}.

(** [clear()] *)
Definition clear (c : TerrainMap) : TerrainMap :=
  {| entries := []; nextId := Int 1 |}.

(** [delete(id)] *)
Definition delete (c : TerrainMap) (id : value) : result bool :=
  match id with
  | Number k =>
      if negb (Map_has k (entries c)) then
        {| returned := false; console := []; state := c |}
      else
        let c1 := {| entries := Map_delete k (entries c); nextId := nextId c |} in
        {| returned := true;
           console := [];
           state := if gt (nextId c1) k
                    then {| entries := entries c1; nextId := findNextId c1 |}
                    else c1 |}
  | _ => {| returned := false; console := []; state := c |}
  end.

(** The containers a program can build: a fresh one, changed by the four
    mutating methods. *)
Inductive reachable : TerrainMap -> Prop :=
| reach_new : reachable empty
| reach_set c id t ov : reachable c -> reachable (state (set c id t ov))
| reach_add c t : reachable c -> reachable (state (add c t))
| reach_delete c id : reachable c -> reachable (state (delete c id))
| reach_clear c : reachable c -> reachable (clear c).

(** [n] is the smallest positive integer that is not a key of [c]. *)
Definition smallest_unused (c : TerrainMap) (n : Z) : Prop :=
  1 <= n /\ has c (Number (Int n)) = false /\
  forall m, 1 <= m < n -> has c (Number (Int m)) = true.

(** [add] called once per terrain of [ts], in order: the ids returned and
    the container afterwards. *)
Fixpoint add_all (c : TerrainMap) (ts : list T) : list num * TerrainMap :=
  match ts with
  | [] => ([], c)
  | t :: ts' =>
      let r := add c t in
      let (ids, c') := add_all (state r) ts' in
      (returned r :: ids, c')
  end.

(** Modelled from the spec: the reconstruction on load (no loader is among
    the sources): [assign(id, entry, override=true)] replayed for each
    stored pair, in ascending id order, on a fresh container. *)
Definition replay (pairs : list (num * T)) : TerrainMap :=
  fold_left (fun c p => state (set c (Number (fst p)) (snd p) true))
            (sort_by fst pairs) empty.
End TerrainMap.

Arguments TerrainMap T : clear implicits.
Arguments result T R : clear implicits.
Arguments mkResult {T R}.
Arguments returned {T R}.
Arguments console {T R}.
Arguments state {T R}.

(** [new TerrainMap()], for the runs below: a terrain is stood for by its
    name. *)
Definition new : TerrainMap string := empty.

(** The container with the keys 1, 3, 4, 2 in this insertion order and the
    cursor 5: four [add]s, [delete(2)], [add]. *)
Definition shuffled : TerrainMap string :=
  state (add (state (delete (snd (add_all new ["a"; "b"; "c"; "d"]%string))
                            (Number (Int 2)))) "e"%string).

(** The ids [1, 2, ..., n]. *)
Definition first_ids (n : nat) : list num :=
  map (fun i => Int (Z.of_nat i)) (seq 1 n).

(** The search of [#findNextId] read off the sorted keys alone: the first key
    whose successor in the list is not the key plus one.  [find_last_consecutive]
    below shows that [Array_find] with the callback of [#findNextId] computes
    it. *)
Fixpoint last_consecutive (l : list num) : option num :=
  match l with
  | [] => None
  | k :: rest =>
      if strict_neq (hd_error rest) (plus1 (Some k)) then Some k
      else last_consecutive rest
  end.

(** An id that [set] accepts: a number that is an integer and is at least 1. *)
Definition positive_integer (id : value) : bool :=
  match id with
  | Number (Int z) => 1 <=? z
  | _ => false
  end.

(** The values an id can take in a container: a positive integer, or [NaN]. *)
Definition id_domain (k : num) : Prop :=
  match k with
  | Int z => 1 <= z
  | NaN => True
  end.

(* ===================================================================== *)
(** ** Terrain.elevationMinMax                                            *)
(* ===================================================================== *)

Module Terrain.





End Terrain.

(** Integer ids in ascending order. *)
Definition ascending_ids (L : list num) : Prop :=
  exists zs, L = map Int zs /\ StronglySorted Z.le zs.

(** An integer that a double holds exactly together with its neighbours:
    its magnitude is at most [Number.MAX_SAFE_INTEGER] = 2^53 - 1. *)
Definition safe_integer (z : Z) : Prop := Z.abs z < 2 ^ 53.

(** The ids [s, s + 1, ..., s + m - 1]. *)
Definition id_run (s m : nat) : list num :=
  map (fun i => Int (Z.of_nat i)) (seq s m).

(* ===================================================================== *)
(** ** Objects and collections keyed by strings                          *)
(* ===================================================================== *)

(** The own properties of a plain object, and the entries of a [Map] or
    [Collection] whose keys are strings (document ids), in insertion order.
    The property name [__proto__], which assignment treats specially, is
    outside this model. *)
Section StringKeys.
Context {V : Type}.

Definition Obj_has (k : string) (o : list (string * V)) : bool :=
  existsb (fun p => String.eqb (fst p) k) o.

(** [o[k]], [undefined] ([None]) for a missing key. *)
Fixpoint Obj_get (k : string) (o : list (string * V)) : option V :=
  match o with
  | [] => None
  | (k', v) :: o' => if String.eqb k' k then Some v else Obj_get k o'
  end.

(** [o[k] = v], [collection.set(k, v)] *)
Fixpoint Obj_set (k : string) (v : V) (o : list (string * V)) : list (string * V) :=
  match o with
  | [] => [(k, v)]
  | (k', v') :: o' =>
      if String.eqb k' k then (k', v) :: o' else (k', v') :: Obj_set k v o'
  end.

(** [collection.delete(k)] *)
Definition Obj_delete (k : string) (o : list (string * V)) : list (string * V) :=
  filter (fun p => negb (String.eqb (fst p) k)) o.
End StringKeys.

(* ===================================================================== *)
(** ** Terrain: the colour counter and updateSource                      *)
(* ===================================================================== *)

Section NextColor.
Context {Color : Type}.

(** [static COLORS = COLORS], the palette imported from [const.js]. *)
Variable COLORS : list Color.

(** [static nextColor() { return this.COLORS[this.#colorId++]; }]: the colour
    returned and the counter afterwards. *)
Definition nextColor (colorId : nat) : option Color * nat :=
  (nth_error COLORS colorId, S colorId).

(** [nextColor()] called [n] times in a row. *)
Fixpoint nextColor_times (n : nat) (colorId : nat) : list (option Color) * nat :=
  match n with
  | O => ([], colorId)
  | S n' =>
      let (color, colorId1) := nextColor colorId in
      let (colors, colorId2) := nextColor_times n' colorId1 in
      (color :: colors, colorId2)
  end.
End NextColor.

Section UpdateSource.
Context {V : Type}.

(** What the host provides: whether a value is truthy, the effect's own
    [updateSource(value)] and [new ActiveEffect(value)]. *)
Variables (truthy : V -> bool)
          (ActiveEffect_updateSource : V -> V -> V)
          (new_ActiveEffect : V -> V).

(** One turn of the loop of [updateSource] on [config]. *)
Definition updateSource_entry (config : list (string * V)) (entry : string * V)
  : list (string * V) :=
  let (key, value) := entry in
  if String.eqb key "id" then config
  else if String.eqb key "activeEffect" then
    Obj_set "activeEffect"
      (match Obj_get "activeEffect" config with
       | Some effect =>
           if truthy effect then ActiveEffect_updateSource effect value
           else new_ActiveEffect value
       | None => new_ActiveEffect value
       end) config
  else Obj_set key value config.

(** [updateSource(json)], on [this.config]; [json] is given by its entries,
    [Object.entries(json)]. *)
Definition updateSource (config : list (string * V)) (json : list (string * V))
  : list (string * V) :=
  fold_left updateSource_entry json config.
End UpdateSource.

(* ===================================================================== *)
(** ** UniqueActiveEffect: effects added to and removed from a token locally *)
(* ===================================================================== *)

Module UniqueActiveEffect.
Section Locally.
Context {Effect Doc AE : Type}.

(** [actor.effects], and [token.actor], [None] when the token has none. *)
Record Actor : Type := mkActor { effects : list (string * AE) }.
Record Token : Type := mkToken { actor : option Actor }.

(** What the host and the abstract parent class provide: [effect.document],
    [effects.createDocument(data)], [doc.id] and
    [tokenDocumentsForUniqueEffects(token, effects, removeAllDuplicates)]. *)
Variables (document : Effect -> Doc)
          (createDocument : Doc -> AE)
          (id : AE -> string)
          (tokenDocumentsForUniqueEffects : Token -> list Effect -> bool -> list AE).

(** [static _addToTokenLocally(token, effects)]: the value returned and the
    token afterwards. *)
Definition _addToTokenLocally (token : Token) (effs : list Effect) : bool * Token :=
  match actor token with
  | None => (false, token)
  | Some a =>
      let stored :=
        fold_left (fun es effect =>
                     let ae := createDocument (document effect) in
                     Obj_set (id ae) ae es)
                  effs (effects a) in
      (true, {| actor := Some {| effects := stored |} |})
  end.

(** [static _removeFromTokenLocally(token, effects, removeAllDuplicates = true)] *)
Definition _removeFromTokenLocally (token : Token) (effs : list Effect)
           (removeAllDuplicates : bool) : bool * Token :=
  match actor token with
  | None => (false, token)
  | Some a =>
      let ids := map id (tokenDocumentsForUniqueEffects token effs removeAllDuplicates) in
      match ids with
      | [] => (false, token)
      | _ :: _ =>
          (true,
           {| actor := Some {| effects :=
                fold_left (fun es i => Obj_delete i es) ids (effects a) |} |})
      end
  end.
End Locally.
End UniqueActiveEffect.

(* ===================================================================== *)
(** ** Keys and the inherited map                                        *)
(* ===================================================================== *)

Lemma same_value_zero_eq (a b : num) : same_value_zero a b = true <-> a = b.
Proof.
  destruct a as [x|], b as [y|]; simpl; split; intro H;
    try discriminate; try reflexivity.
  - apply Z.eqb_eq in H. now subst.
  - injection H as ->. apply Z.eqb_refl.
Qed.

Lemma same_value_zero_refl (a : num) : same_value_zero a a = true.
Proof. now apply same_value_zero_eq. Qed.

Lemma same_value_zero_neq (a b : num) : a <> b -> same_value_zero a b = false.
Proof.
  intro H. destruct (same_value_zero a b) eqn:E; [|reflexivity].
  apply same_value_zero_eq in E. contradiction.
Qed.

Section MapFacts.
Context {T : Type}.
Implicit Types (m : list (num * T)) (k : num) (v : T).

Lemma Map_get_set_same m k v : Map_get k (Map_set k v m) = Some v.
Proof.
  induction m as [|[k' v'] m IH]; simpl.
  - now rewrite same_value_zero_refl.
  - destruct (same_value_zero k' k) eqn:E; simpl; rewrite E; auto.
Qed.

Lemma Map_get_set_other m k k' v :
  k' <> k -> Map_get k' (Map_set k v m) = Map_get k' m.
Proof.
  intro Hne. induction m as [|[k0 v0] m IH]; simpl.
  - rewrite same_value_zero_neq; auto.
  - destruct (same_value_zero k0 k) eqn:E; simpl.
    + apply same_value_zero_eq in E. subst k0.
      rewrite same_value_zero_neq; auto.
    + now rewrite IH.
Qed.

Lemma Map_has_delete m k : Map_has k (Map_delete k m) = false.
Proof.
  induction m as [|[k' v'] m IH]; simpl; [reflexivity|].
  destruct (same_value_zero k' k) eqn:E; simpl; [exact IH|].
  now rewrite E.
Qed.


Lemma Map_has_keys m k : Map_has k m = true <-> In k (map fst m).
Proof.
  unfold Map_has. rewrite existsb_exists. split.
  - intros [p [Hin E]]. apply same_value_zero_eq in E. subst k.
    now apply in_map.
  - intros Hin. apply in_map_iff in Hin as [p [E Hin]].
    exists p. split; [exact Hin|]. subst k. apply same_value_zero_refl.
Qed.

Lemma Map_set_fresh m k v : Map_has k m = false -> Map_set k v m = m ++ [(k, v)].
Proof.
  induction m as [|[k' v'] m IH]; simpl; [reflexivity|].
  intro H. apply orb_false_iff in H as [E H].
  rewrite E. now rewrite IH.
Qed.

Lemma Map_set_keys m k v :
  map fst (Map_set k v m) = if Map_has k m then map fst m else map fst m ++ [k].
Proof.
  induction m as [|[k' v'] m IH]; simpl; [reflexivity|].
  destruct (same_value_zero k' k) eqn:E; simpl; [reflexivity|].
  rewrite IH. now destruct (Map_has k m).
Qed.

Lemma Map_delete_keys m k : forall x, In x (map fst (Map_delete k m)) -> In x (map fst m).
Proof.
  intros x Hin. apply in_map_iff in Hin as [p [E Hin]].
  apply filter_In in Hin as [Hin _]. subst x. now apply in_map.
Qed.
End MapFacts.

(* ===================================================================== *)
(** ** Sorting and searching the keys                                    *)
(* ===================================================================== *)

Section SortFacts.
Context {A : Type} (key : A -> num).

Lemma insert_by_In (x y : A) (l : list A) :
  In y (insert_by key x l) <-> y = x \/ In y l.
Proof.
  induction l as [|z l IH]; simpl.
  - intuition.
  - destruct (stays_before (key z) (key x)); simpl; rewrite ?IH; intuition.
Qed.

Lemma fold_insert_In (y : A) (l acc : list A) :
  In y (fold_left (fun acc x => insert_by key x acc) l acc) <-> In y l \/ In y acc.
Proof.
  revert acc. induction l as [|x l IH]; intro acc; simpl.
  - intuition.
  - rewrite IH, insert_by_In. intuition.
Qed.

(** Sorting keeps exactly the elements it was given. *)
Lemma sort_by_In (y : A) (l : list A) : In y (sort_by key l) <-> In y l.
Proof. unfold sort_by. rewrite fold_insert_In. simpl. intuition. Qed.

Lemma insert_by_last (x : A) (l : list A) :
  Forall (fun y => stays_before (key y) (key x) = true) l ->
  insert_by key x l = l ++ [x].
Proof.
  induction 1 as [|y l Hy _ IH]; simpl; [reflexivity|].
  now rewrite Hy, IH.
Qed.

Lemma ordered_before (R : A -> A -> Prop) (x : A) (l acc : list A) :
  ForallOrdPairs R (acc ++ x :: l) -> Forall (fun y => R y x) acc.
Proof.
  induction acc as [|z acc IH]; simpl; intro H; [constructor|].
  inversion H as [|? ? Hall Hrest]; subst. constructor.
  - rewrite Forall_forall in Hall. apply Hall.
    apply in_or_app. right. now left.
  - now apply IH.
Qed.

Lemma fold_insert_ordered (l acc : list A) :
  ForallOrdPairs (fun a b => stays_before (key a) (key b) = true) (acc ++ l) ->
  fold_left (fun acc x => insert_by key x acc) l acc = acc ++ l.
Proof.
  revert acc. induction l as [|x l IH]; intros acc H; simpl.
  - now rewrite app_nil_r.
  - rewrite insert_by_last.
    + rewrite IH; rewrite <- app_assoc; [reflexivity | exact H].
    + exact (ordered_before _ x l acc H).
Qed.

(** A list already in order is left as it is. *)
Lemma sort_by_ordered (l : list A) :
  ForallOrdPairs (fun a b => stays_before (key a) (key b) = true) l ->
  sort_by key l = l.
Proof. intro H. unfold sort_by. now rewrite fold_insert_ordered. Qed.
End SortFacts.

(** On integer keys the model of [sort] is the ascending sort: the result
    holds the same integers, in ascending order. *)
Lemma insert_integer (z : Z) (acc : list Z) :
  StronglySorted Z.le acc ->
  exists acc',
    insert_by (fun k => k) (Int z) (map Int acc) = map Int acc' /\
    StronglySorted Z.le acc' /\ Permutation (z :: acc) acc'.
Proof.
  induction acc as [|a acc IH]; intro Hs.
  - exists [z]. repeat split; auto. constructor; constructor.
  - apply StronglySorted_inv in Hs as [Hs Ha]. cbn [map insert_by stays_before].
    destruct (a <=? z) eqn:E.
    + destruct (IH Hs) as [acc' [E' [Hs' Hp]]].
      exists (a :: acc'). rewrite E'. repeat split.
      * constructor; [exact Hs'|].
        apply (Permutation_Forall Hp). constructor; [|exact Ha].
        now apply Z.leb_le.
      * rewrite perm_swap. now constructor.
    + exists (z :: a :: acc). repeat split; auto.
      apply Z.leb_gt in E.
      constructor; [now constructor|].
      constructor; [lia|].
      rewrite Forall_forall in *. intros x Hx. specialize (Ha x Hx). lia.
Qed.

Lemma fold_insert_integers (zs acc : list Z) :
  StronglySorted Z.le acc ->
  exists zs',
    fold_left (fun acc x => insert_by (fun k => k) x acc) (map Int zs) (map Int acc)
    = map Int zs' /\
    StronglySorted Z.le zs' /\ Permutation (zs ++ acc) zs'.
Proof.
  revert acc. induction zs as [|z zs IH]; intros acc Hs.
  - exists acc. auto.
  - destruct (insert_integer z acc Hs) as [acc' [E [Hs' Hp]]].
    destruct (IH acc' Hs') as [zs' [E' [Hs'' Hp']]].
    exists zs'. cbn [map fold_left]. rewrite E, E'. repeat split; auto.
    rewrite <- Hp'. cbn [app]. rewrite <- Hp.
    apply Permutation_middle.
Qed.

Lemma Array_sort_integers (zs : list Z) :
  exists zs',
    Array_sort (map Int zs) = map Int zs' /\
    StronglySorted Z.le zs' /\ Permutation zs zs'.
Proof.
  destruct (fold_insert_integers zs [] (SSorted_nil _)) as [zs' [E [Hs Hp]]].
  exists zs'. rewrite app_nil_r in Hp. now repeat split.
Qed.

Lemma nth_error_after (pre : list num) (k : num) (rest : list num) :
  nth_error (pre ++ k :: rest) (List.length pre + 1) = hd_error rest.
Proof.
  rewrite nth_error_app2 by lia.
  replace (List.length pre + 1 - List.length pre)%nat with 1%nat by lia.
  now destruct rest.
Qed.

Lemma find_from_last_consecutive (pre suf : list num) :
  find_from
    (fun k idx => strict_neq (nth_error (pre ++ suf) (idx + 1)) (plus1 (Some k)))
    (List.length pre) suf
  = last_consecutive suf.
Proof.
  revert pre.
  induction suf as [|k rest IH]; intro pre; cbn [find_from last_consecutive];
    [reflexivity|].
  rewrite nth_error_after.
  destruct (strict_neq (hd_error rest) (plus1 (Some k))); [reflexivity|].
  specialize (IH (pre ++ [k])).
  rewrite <- app_assoc, length_app in IH. cbn [List.length app] in IH.
  rewrite Nat.add_1_r in IH. exact IH.
Qed.

(** The callback of [#findNextId] finds the end of the first run of
    consecutive keys. *)
Lemma find_last_consecutive (keys : list num) :
  Array_find
    (fun k idx => strict_neq (nth_error keys (idx + 1)) (plus1 (Some k))) keys
  = last_consecutive keys.
Proof. exact (find_from_last_consecutive [] keys). Qed.

Lemma last_consecutive_In (l : list num) (k : num) :
  last_consecutive l = Some k -> In k l.
Proof.
  induction l as [|x l IH]; cbn [last_consecutive]; [discriminate|].
  destruct (strict_neq (hd_error l) (plus1 (Some x))).
  - intro H. injection H as ->. now left.
  - intro H. right. now apply IH.
Qed.

Section FirstIds.
Let id_of (i : nat) : num := Int (Z.of_nat i).

Lemma ids_ordered (s n : nat) :
  ForallOrdPairs (fun a b => stays_before a b = true) (map id_of (seq s n)).
Proof.
  revert s. induction n as [|n IH]; intro s; simpl; constructor; [|apply IH].
  apply Forall_forall. intros b Hb.
  apply in_map_iff in Hb as [i [<- Hi]]. apply in_seq in Hi.
  simpl. apply Z.leb_le. lia.
Qed.

Lemma ids_last_consecutive (s n : nat) :
  last_consecutive (map id_of (seq s (S n))) = Some (id_of (s + n)).
Proof.
  revert s. induction n as [|n IH]; intro s.
  - simpl. now rewrite Nat.add_0_r.
  - change (seq s (S (S n))) with (s :: seq (S s) (S n)).
    rewrite map_cons. cbn [last_consecutive].
    rewrite IH.
    replace (strict_neq (hd_error (map id_of (seq (S s) (S n))))
                        (plus1 (Some (id_of s)))) with false.
    + unfold id_of. do 3 f_equal. lia.
    + cbn [seq map hd_error strict_neq plus1 strict_eq id_of].
      symmetry. apply negb_false_iff. apply Z.eqb_eq. lia.
Qed.

Lemma first_ids_S (n : nat) : first_ids (S n) = first_ids n ++ [id_of (S n)].
Proof. unfold first_ids. now rewrite seq_S, map_app. Qed.

Lemma first_ids_fresh (n : nat) : ~ In (id_of (S n)) (first_ids n).
Proof.
  unfold first_ids. intro H. apply in_map_iff in H as [i [E Hi]].
  apply in_seq in Hi. injection E as E. lia.
Qed.

Lemma first_ids_sorted (n : nat) : Array_sort (first_ids n) = first_ids n.
Proof. apply sort_by_ordered. apply ids_ordered. Qed.

Lemma first_ids_find (n : nat) :
  last_consecutive (first_ids (S n)) = Some (id_of (S n)).
Proof. unfold first_ids. now rewrite ids_last_consecutive. Qed.
End FirstIds.

(* ===================================================================== *)
(** ** The methods of TerrainMap                                         *)
(* ===================================================================== *)

Section Methods.
Context {T : Type}.
Implicit Types (c : TerrainMap T) (t : T) (k : num) (id : value).

Lemma keys_length c : List.length (keys c) = List.length (entries c).
Proof. unfold keys. apply length_map. Qed.

Lemma store_entries c k t : entries (store c k t) = Map_set k t (entries c).
Proof. reflexivity. Qed.

Lemma store_get c k t : get (store c k t) k = Some t.
Proof. unfold get. rewrite store_entries. apply Map_get_set_same. Qed.

Lemma store_has c k t : has (store c k t) (Number k) = true.
Proof.
  simpl. apply Map_has_keys. rewrite Map_set_keys.
  destruct (Map_has k (entries c)) eqn:E.
  - now apply Map_has_keys.
  - apply in_or_app. right. now left.
Qed.

(** One [add] on a container holding exactly the ids [1..n] with the cursor
    at [n + 1]. *)
Lemma add_next c t (n : nat) :
  keys c = first_ids n ->
  nextId c = Int (Z.of_nat (S n)) ->
  returned (add c t) = Int (Z.of_nat (S n)) /\
  keys (state (add c t)) = first_ids (S n) /\
  nextId (state (add c t)) = Int (Z.of_nat (S (S n))).
Proof.
  intros Hkeys Hnext.
  assert (Hfresh : Map_has (Int (Z.of_nat (S n))) (entries c) = false).
  { destruct (Map_has (Int (Z.of_nat (S n))) (entries c)) eqn:E; [|reflexivity].
    apply Map_has_keys in E. fold (keys c) in E. rewrite Hkeys in E.
    now apply first_ids_fresh in E. }
  assert (Hkeys' : keys (state (add c t)) = first_ids (S n)).
  { unfold add, keys. cbn [state]. rewrite store_entries, Map_set_keys, Hnext, Hfresh.
    fold (keys c). now rewrite Hkeys, first_ids_S. }
  split; [exact Hnext|]. split; [exact Hkeys'|].
  unfold add in *. cbn [state] in *. unfold store in *. cbn [entries nextId] in *.
  unfold findNextId. cbn [nextId].
  fold (keys {| entries := Map_set (nextId c) t (entries c); nextId := nextId c |}).
  unfold keys in Hkeys' at 1. cbn [entries] in Hkeys'. unfold keys at 1 2.
  cbn [entries]. rewrite Hkeys'.
  unfold size. cbn [entries].
  rewrite <- (length_map fst), Hkeys'. unfold first_ids at 1.
  rewrite length_map, length_seq, Hnext.
  cbn [minus1 strict_eq].
  replace (Z.of_nat (S n) =? Z.of_nat (S n) - 1) with false
    by (symmetry; apply Z.eqb_neq; lia).
  rewrite first_ids_sorted, find_last_consecutive, first_ids_find.
  cbn [nullish plus1]. f_equal. lia.
Qed.

Lemma add_all_from c (ts : list T) (n : nat) :
  keys c = first_ids n ->
  nextId c = Int (Z.of_nat (S n)) ->
  fst (add_all c ts) = map (fun i => Int (Z.of_nat i)) (seq (S n) (List.length ts)) /\
  keys (snd (add_all c ts)) = first_ids (n + List.length ts) /\
  nextId (snd (add_all c ts)) = Int (Z.of_nat (S (n + List.length ts))).
Proof.
  revert c n. induction ts as [|t ts IH]; intros c n Hkeys Hnext.
  - cbn. rewrite Nat.add_0_r. auto.
  - destruct (add_next c t n Hkeys Hnext) as [Hid [Hkeys' Hnext']].
    specialize (IH (state (add c t)) (S n) Hkeys' Hnext').
    cbn [add_all List.length seq map].
    destruct (add_all (state (add c t)) ts) as [ids c'].
    cbn [fst snd] in *. destruct IH as [IH1 [IH2 IH3]].
    rewrite Hid, IH1, IH2, IH3.
    replace (n + S (List.length ts))%nat with (S n + List.length ts)%nat by lia.
    auto.
Qed.

(** *** The ids a container can hold *)

Lemma findNextId_domain c :
  Forall id_domain (keys c) -> id_domain (nextId c) -> id_domain (findNextId c).
Proof.
  intros Hkeys Hnext. unfold findNextId.
  destruct (strict_eq (size c) (minus1 (nextId c))).
  - destruct (nextId c); simpl in *; [lia | exact I].
  - rewrite find_last_consecutive. cbn [nullish].
    destruct (last_consecutive (Array_sort (keys c))) as [k|] eqn:E; [|exact I].
    apply last_consecutive_In in E. apply sort_by_In in E.
    rewrite Forall_forall in Hkeys. specialize (Hkeys k E).
    destruct k; simpl in *; [lia | exact I].
Qed.

Lemma store_domain c k t :
  id_domain k -> Forall id_domain (keys c) -> id_domain (nextId c) ->
  Forall id_domain (keys (store c k t)) /\ id_domain (nextId (store c k t)).
Proof.
  intros Hk Hkeys Hnext.
  assert (H : Forall id_domain (map fst (Map_set k t (entries c)))).
  { rewrite Map_set_keys. destruct (Map_has k (entries c)); [exact Hkeys|].
    apply Forall_app. split; [exact Hkeys | now constructor]. }
  split; [exact H|]. unfold store. cbn [nextId entries].
  now apply findNextId_domain.
Qed.

(** Every key of a container a program can build, and its cursor, is a
    positive integer or [NaN]. *)
Lemma reachable_domain c :
  reachable c -> Forall id_domain (keys c) /\ id_domain (nextId c).
Proof.
  induction 1 as [|c id t ov _ [Hk Hn]|c t _ [Hk Hn]|c id _ [Hk Hn]|c _ _].
  - split; [constructor | simpl; lia].
  - unfold set, or_nextId. cbv zeta.
    destruct (negb ov && has c _); [cbn [state]; auto|].
    destruct id as [|[z|]|]; cbn [state]; auto.
    + destruct (nextId c) as [z|] eqn:E; cbn [state]; try (rewrite E; now auto).
      destruct (z <? 1) eqn:Ez; cbn [state]; try (rewrite E; now auto).
      apply store_domain; auto. now rewrite E.
    + destruct (z <? 1) eqn:Ez; cbn [state]; auto.
      apply store_domain; auto. apply Z.ltb_ge in Ez. exact Ez.
  - unfold add. cbn [state]. now apply store_domain.
  - unfold delete. destruct id as [|k|]; cbn [state]; auto.
    destruct (negb (Map_has k (entries c))); cbn [state]; auto.
    assert (H : Forall id_domain (map fst (Map_delete k (entries c)))).
    { apply Forall_forall. intros x Hx. apply Map_delete_keys in Hx.
      rewrite Forall_forall in Hk. now apply Hk. }
    cbn [nextId entries]. destruct (gt (nextId c) k); split; auto.
    now apply findNextId_domain.
  - split; [constructor | simpl; lia].
Qed.

(** In particular [0] is never a key. *)
Lemma reachable_no_zero c : reachable c -> has c (Number (Int 0)) = false.
Proof.
  intro H. apply reachable_domain in H as [Hk _].
  destruct (has c (Number (Int 0))) eqn:E; [|reflexivity].
  simpl in E. apply Map_has_keys in E.
  rewrite Forall_forall in Hk. specialize (Hk _ E). simpl in Hk. lia.
Qed.
End Methods.

(* ===================================================================== *)
(** ** Properties of the allocator                                        *)
(* ===================================================================== *)

Section Allocator.
Context {T : Type}.
Implicit Types (c : TerrainMap T) (t x y : T) (k : num) (id : value).

(** C5.  [add] called n times on a fresh container, with nothing in
    between, returns the ids 1, 2, ..., n in this order; the container then
    holds exactly these keys and its cursor is n + 1. *)
Theorem add_all_consecutive_ids (ts : list T) :
  fst (add_all empty ts) = first_ids (List.length ts) /\
  keys (snd (add_all empty ts)) = first_ids (List.length ts) /\
  nextId (snd (add_all empty ts)) = Int (Z.of_nat (S (List.length ts))).
Proof. exact (add_all_from empty ts 0 eq_refl eq_refl). Qed.

(** C6.  A rejected [set] changes nothing.  When the id (the cursor, for a
    missing id) is not a positive integer, or is a key while [override] is
    false, [set] returns no id, writes one error on the console and leaves
    the entries and the cursor as they were.  In particular, after
    [set(z, x)] has stored [x] at a free id [z], [set(z, y)] without
    override is rejected as already present and the entry at [z] is still
    [x]. *)
Theorem set_rejection_atomic :
  (forall c id t (override : bool),
      positive_integer (or_nextId c id) = false \/
      (has c (or_nextId c id) = true /\ override = false) ->
      set c id t override =
      {| returned := None;
         console := [if negb override && has c (or_nextId c id)
                     then error_present
                     else error_invalid (or_nextId c id)];
         state := c |}) /\
  (forall c (z : Z) x y,
      1 <= z -> has c (Number (Int z)) = false ->
      let c1 := state (set c (Number (Int z)) x false) in
      returned (set c (Number (Int z)) x false) = Some (Int z) /\
      set c1 (Number (Int z)) y false =
      {| returned := None; console := [error_present]; state := c1 |} /\
      get c1 (Int z) = Some x).
Proof.
  split.
  - intros c id t override H. unfold set. cbv zeta.
    destruct (negb override && has c (or_nextId c id)) eqn:E; [reflexivity|].
    destruct H as [H | [Hhas ->]]; [|rewrite Hhas in E; discriminate].
    destruct (or_nextId c id) as [|[z|]|]; try reflexivity.
    simpl in H. apply Z.leb_gt in H.
    apply Z.ltb_lt in H. now rewrite H.
  - intros c z x y Hz Hfree c1.
    assert (Hset : set c (Number (Int z)) x false =
                   {| returned := Some (Int z);
                      console := warn_if_exceeds (Int z);
                      state := store c (Int z) x |}).
    { unfold set. cbv zeta. cbn [or_nextId negb andb]. rewrite Hfree.
      apply Z.ltb_ge in Hz. now rewrite Hz. }
    subst c1. rewrite Hset. cbn [returned state].
    split; [reflexivity|]. split; [|apply store_get].
    unfold set. cbv zeta. cbn [or_nextId negb andb].
    now rewrite store_has.
Qed.

(** C8.  [MAX_TERRAINS] = 31 is a soft cap: [set] with an integer id above
    it that is not yet a key is never rejected; it stores the entry at that
    id, returns the id and only writes a warning. *)
Theorem set_above_max_succeeds c (z : Z) t (override : bool) :
  MAX_TERRAINS < z ->
  has c (Number (Int z)) = false ->
  let r := set c (Number (Int z)) t override in
  MAX_TERRAINS = 31 /\
  returned r = Some (Int z) /\
  get (state r) (Int z) = Some t /\
  console r = [warn_exceeds (Int z)].
Proof.
  intros Hmax Hfree r. subst r. unfold set. cbv zeta. cbn [or_nextId].
  rewrite Hfree, andb_false_r.
  assert (H1 : (z <? 1) = false) by (apply Z.ltb_ge; unfold MAX_TERRAINS in Hmax; lia).
  rewrite H1. cbn [returned state console].
  split; [reflexivity|]. split; [reflexivity|]. split; [apply store_get|].
  unfold warn_if_exceeds, gt. apply Z.ltb_lt in Hmax. now rewrite Hmax.
Qed.

(** C10.  [add] never fails and checks nothing: in every state of the
    container, whatever the cursor holds, it stores the entry at the key the
    cursor holds and returns that key, writing at most the capacity warning.
    Where [set] without an id rejects the call, because the cursor is [NaN]
    or is already a key, [add] stores all the same. *)
Theorem add_never_fails :
  (forall c t,
      returned (add c t) = nextId c /\
      entries (state (add c t)) = Map_set (nextId c) t (entries c) /\
      get (state (add c t)) (nextId c) = Some t /\
      console (add c t) = warn_if_exceeds (nextId c)) /\
  (forall t,
      let c := state (delete (state (add empty t)) (Number (Int 1))) in
      nextId c = NaN /\
      set c Undefined t false =
      {| returned := None; console := [error_invalid (Number NaN)]; state := c |} /\
      returned (add c t) = NaN /\ get (state (add c t)) NaN = Some t) /\
  (forall x y t,
      let c := state (set (state (set empty (Number (Int 2)) x false))
                          (Number (Int 4)) y false) in
      nextId c = Int 4 /\ get c (Int 4) = Some y /\
      set c Undefined t false =
      {| returned := None; console := [error_present]; state := c |} /\
      returned (add c t) = Int 4 /\ get (state (add c t)) (Int 4) = Some t).
Proof.
  split; [|split].
  - intros c t. unfold add. cbn [returned state console].
    repeat split. apply store_get.
  - intro t. repeat split.
  - intros x y t. repeat split.
Qed.
End Allocator.

(* ===================================================================== *)
(** ** Runs on which the cursor goes wrong                               *)
(* ===================================================================== *)

Section Runs.
Local Open Scope string_scope.

(** C1.  The cursor is not always the smallest unused id.  After [add("a")]
    and [delete(1)] the container is empty, so 1 is the smallest unused id,
    and the cursor is [NaN]; after [set(5, "x")] on a fresh container the
    smallest unused id is 1 and the cursor is 6; after two [add]s and
    [set(1, "c", true)] the smallest unused id is 3 and the cursor is 4.
    Each of these calls succeeded. *)
Theorem cursor_not_smallest_unused :
  (let r := delete (state (add new "a")) (Number (Int 1)) in
   reachable (state r) /\ returned r = true /\
   smallest_unused (state r) 1 /\ nextId (state r) = NaN) /\
  (let r := set new (Number (Int 5)) "x" false in
   reachable (state r) /\ returned r = Some (Int 5) /\
   smallest_unused (state r) 1 /\ nextId (state r) = Int 6) /\
  (let r := set (state (add (state (add new "a")) "b")) (Number (Int 1)) "c" true in
   reachable (state r) /\ returned r = Some (Int 1) /\
   smallest_unused (state r) 3 /\ nextId (state r) = Int 4).
Proof.
  split; [|split]; intro r; subst r.
  - split; [apply reach_delete, reach_add, reach_new|].
    repeat split; try reflexivity; intros; lia.
  - split; [apply reach_set, reach_new|].
    repeat split; try reflexivity; intros; lia.
  - split; [apply reach_set, reach_add, reach_add, reach_new|].
    repeat split; try reflexivity; try lia.
    intros m Hm. assert (E : m = 1 \/ m = 2) by lia.
    destruct E as [-> | ->]; reflexivity.
Qed.

(** C2.  [add] can collide.  After [set(2, "x")] and [set(4, "y")] on a
    fresh container the cursor is 4, which is a key; [add("w")] then stores
    at 4, replacing "y", and returns 4, whereas [set(null, "w", false)]
    rejects the call and changes nothing. *)
Theorem add_collides_with_existing_key :
  let c := state (set (state (set new (Number (Int 2)) "x" false))
                      (Number (Int 4)) "y" false) in
  reachable c /\
  nextId c = Int 4 /\ has c (Number (nextId c)) = true /\ get c (Int 4) = Some "y" /\
  returned (add c "w") = Int 4 /\ get (state (add c "w")) (Int 4) = Some "w" /\
  returned (set c Undefined "w" false) = None /\
  state (set c Undefined "w" false) = c.
Proof.
  intro c. subst c.
  split; [apply reach_set, reach_set, reach_new|].
  repeat split.
Qed.

(** C3.  A key need not be a positive integer.  After [add("a")],
    [delete(1)] and [add("b")] the only key of the container is [NaN]. *)
Theorem NaN_becomes_key :
  let c := state (add (state (delete (state (add new "a")) (Number (Int 1)))) "b") in
  reachable c /\ keys c = [NaN] /\ get c NaN = Some "b" /\
  returned (add (state (delete (state (add new "a")) (Number (Int 1)))) "b") = NaN.
Proof.
  intro c. subst c.
  split; [apply reach_add, reach_delete, reach_add, reach_new|].
  repeat split.
Qed.

(** C4.  Replaying the pairs of a container in ascending id order on a
    fresh one does not always give back its cursor.  The container built by
    two [add]s and [set(1, "c", true)] has cursor 4, its replay has the same
    entries and cursor 3; the one built by [set(4, "x")] and [set(2, "y")]
    has cursor 3, its replay has cursor 4; the one built by [add("a")] and
    [delete(1)] has cursor [NaN], its replay has cursor 1. *)
Theorem replay_cursor_differs :
  (let c := state (set (state (add (state (add new "a")) "b"))
                       (Number (Int 1)) "c" true) in
   reachable c /\ entries (replay (entries c)) = entries c /\
   nextId c = Int 4 /\ nextId (replay (entries c)) = Int 3) /\
  (let c := state (set (state (set new (Number (Int 4)) "x" false))
                       (Number (Int 2)) "y" false) in
   reachable c /\
   (forall k, get (replay (entries c)) k = get c k) /\
   nextId c = Int 3 /\ nextId (replay (entries c)) = Int 4) /\
  (let c := state (delete (state (add new "a")) (Number (Int 1))) in
   reachable c /\ entries (replay (entries c)) = entries c /\
   nextId c = NaN /\ nextId (replay (entries c)) = Int 1).
Proof.
  split; [|split]; intro c; subst c.
  - split; [apply reach_set, reach_add, reach_add, reach_new|]. repeat split.
  - split; [apply reach_set, reach_set, reach_new|]. repeat split.
    intros [z|]; [|reflexivity]. unfold get. cbn.
    change (match z with Z.pos q => Pos.eqb 2 q | _ => false end) with (Z.eqb 2 z).
    change (match z with Z.pos q => Pos.eqb 4 q | _ => false end) with (Z.eqb 4 z).
    destruct (Z.eqb 2 z) eqn:E2, (Z.eqb 4 z) eqn:E4; try reflexivity.
    apply Z.eqb_eq in E2, E4. lia.
  - split; [apply reach_delete, reach_add, reach_new|]. repeat split.
Qed.

(** The rejection of C6 at work: [set(5, "x")] then [set(5, "y")] on a
    fresh container. *)
Lemma set_rejection_atomic_witness :
  let c1 := state (set new (Number (Int 5)) "x" false) in
  returned (set new (Number (Int 5)) "x" false) = Some (Int 5) /\
  set c1 (Number (Int 5)) "y" false =
  {| returned := None; console := [error_present]; state := c1 |} /\
  get c1 (Int 5) = Some "x".
Proof.
  apply (proj2 (@set_rejection_atomic string) new 5 "x" "y");
    [lia | reflexivity].
Defined.

(** C8 at [set(40, "x")] on a fresh container. *)
Lemma set_above_max_succeeds_witness :
  let r := set new (Number (Int 40)) "x" false in
  MAX_TERRAINS = 31 /\
  returned r = Some (Int 40) /\
  get (state r) (Int 40) = Some "x" /\
  console r = [warn_exceeds (Int 40)].
Proof.
  apply (set_above_max_succeeds new 40 "x" false); reflexivity.
Defined.
End Runs.


(* ===================================================================== *)
(** ** Further properties of the allocator                               *)
(* ===================================================================== *)

Section MoreMapFacts.
Context {T : Type}.
Implicit Types (m : list (num * T)) (k : num) (v : T).

Lemma Map_delete_keys_filter m k :
  map fst (Map_delete k m)
  = filter (fun x => negb (same_value_zero x k)) (map fst m).
Proof.
  induction m as [|[k' v'] m IH]; simpl; [reflexivity|].
  destruct (same_value_zero k' k); simpl; now rewrite IH.
Qed.

Lemma Map_set_NoDup m k v : NoDup (map fst m) -> NoDup (map fst (Map_set k v m)).
Proof.
  intro H. rewrite Map_set_keys.
  destruct (Map_has k m) eqn:E; [exact H|].
  apply NoDup_app; [exact H | repeat constructor; intros [] |].
  intros a Ha [<-|[]].
  apply Map_has_keys in Ha. congruence.
Qed.

Lemma Map_delete_NoDup m k : NoDup (map fst m) -> NoDup (map fst (Map_delete k m)).
Proof.
  intro H. rewrite Map_delete_keys_filter. now apply NoDup_filter.
Qed.

Lemma Map_has_set_other m k k' v :
  k' <> k -> Map_has k' (Map_set k v m) = Map_has k' m.
Proof.
  intro Hne.
  destruct (Map_has k' (Map_set k v m)) eqn:E1, (Map_has k' m) eqn:E2;
    try reflexivity.
  - apply Map_has_keys in E1. rewrite Map_set_keys in E1.
    destruct (Map_has k m).
    + apply Map_has_keys in E1. congruence.
    + apply in_app_or in E1 as [E1|[E1|[]]]; [|congruence].
      apply Map_has_keys in E1. congruence.
  - apply Map_has_keys in E2.
    assert (H : In k' (map fst (Map_set k v m))).
    { rewrite Map_set_keys. destruct (Map_has k m); [exact E2|].
      apply in_or_app. now left. }
    apply Map_has_keys in H. congruence.
Qed.
End MoreMapFacts.

Lemma filter_all {A : Type} (f : A -> bool) (l : list A) :
  (forall x, In x l -> f x = true) -> filter f l = l.
Proof.
  induction l as [|a l IH]; intro H; simpl; [reflexivity|].
  rewrite (H a (or_introl eq_refl)). f_equal. apply IH.
  intros x Hx. apply H. now right.
Qed.

Lemma first_ids_run (n : nat) : first_ids n = id_run 1 n.
Proof. reflexivity. Qed.

Lemma id_run_In (s m : nat) (x : num) :
  In x (id_run s m) <-> exists i, x = Int (Z.of_nat i) /\ (s <= i < s + m)%nat.
Proof.
  unfold id_run. rewrite in_map_iff. split.
  - intros [i [<- Hi]]. apply in_seq in Hi. eauto.
  - intros [i [-> Hi]]. exists i. split; [reflexivity|]. now apply in_seq.
Qed.

Lemma id_run_app (s m1 m2 : nat) :
  id_run s (m1 + m2) = id_run s m1 ++ id_run (s + m1) m2.
Proof. unfold id_run. now rewrite seq_app, map_app. Qed.

(** The scan stops at the end of a leading run of consecutive ids when what
    follows the run is not the next id. *)
Lemma last_consecutive_run (s m : nat) (rest : list num) :
  strict_neq (hd_error rest) (Int (Z.of_nat (s + m) + 1)) = true ->
  last_consecutive (id_run s (S m) ++ rest) = Some (Int (Z.of_nat (s + m))).
Proof.
  revert s. induction m as [|m IH]; intros s H.
  - rewrite Nat.add_0_r in *. cbn [id_run seq map app last_consecutive plus1].
    now rewrite H.
  - change (id_run s (S (S m))) with (Int (Z.of_nat s) :: id_run (S s) (S m)).
    cbn [app last_consecutive].
    replace (s + S m)%nat with (S s + m)%nat in * by lia.
    rewrite (IH (S s) H).
    replace (strict_neq (hd_error (id_run (S s) (S m) ++ rest))
                        (plus1 (Some (Int (Z.of_nat s))))) with false;
      [reflexivity|].
    cbn [id_run seq map app hd_error strict_neq plus1 strict_eq].
    symmetry. apply negb_false_iff. apply Z.eqb_eq. lia.
Qed.

(** Removing the id [k] from [1..n] leaves [1..k-1] followed by [k+1..n]. *)
Lemma first_ids_remove (n k : nat) :
  (1 <= k <= n)%nat ->
  filter (fun x => negb (same_value_zero x (Int (Z.of_nat k)))) (first_ids n)
  = id_run 1 (k - 1) ++ id_run (S k) (n - k).
Proof.
  intro Hk. rewrite first_ids_run.
  replace n with ((k - 1) + (1 + (n - k)))%nat at 1 by lia.
  rewrite id_run_app, filter_app.
  replace (1 + (k - 1))%nat with k by lia.
  change (id_run k (1 + (n - k)))
    with (Int (Z.of_nat k) :: id_run (S k) (n - k)).
  cbn [filter]. rewrite same_value_zero_refl. cbn [negb].
  rewrite !filter_all; [reflexivity| |].
  - intros x Hx. apply id_run_In in Hx as [i [-> Hi]].
    simpl. apply negb_true_iff, Z.eqb_neq. lia.
  - intros x Hx. apply id_run_In in Hx as [i [-> Hi]].
    simpl. apply negb_true_iff, Z.eqb_neq. lia.
Qed.

Section MoreMethods.
Context {T : Type}.
Implicit Types (c : TerrainMap T) (t : T) (k : num) (id : value).

Lemma size_keys c : size c = Int (Z.of_nat (List.length (keys c))).
Proof. unfold size. now rewrite keys_length. Qed.

(** When the shortcut does not apply, the new cursor is one more than the
    end of the first run of consecutive keys in ascending order. *)
Lemma findNextId_scan c :
  strict_eq (size c) (minus1 (nextId c)) = false ->
  findNextId c = plus1 (last_consecutive (Array_sort (keys c))).
Proof.
  intro H. unfold findNextId. rewrite H, find_last_consecutive. reflexivity.
Qed.

Lemma store_keys c k t :
  keys (store c k t) = if Map_has k (entries c) then keys c else keys c ++ [k].
Proof. unfold keys. rewrite store_entries. apply Map_set_keys. Qed.

Lemma set_accepted c (z : Z) t (ov : bool) :
  1 <= z -> ov = true \/ has c (Number (Int z)) = false ->
  set c (Number (Int z)) t ov =
  {| returned := Some (Int z);
     console := warn_if_exceeds (Int z);
     state := store c (Int z) t |}.
Proof.
  intros Hz Hok. unfold set. cbv zeta. cbn [or_nextId].
  replace (negb ov && has c (Number (Int z))) with false
    by (destruct Hok as [-> | ->]; [reflexivity | now rewrite andb_false_r]).
  apply Z.ltb_ge in Hz. now rewrite Hz.
Qed.

(** The two outcomes of [set]. *)
Lemma set_cases c id t (ov : bool) :
  (positive_integer (or_nextId c id) = true /\
   (ov = true \/ has c (or_nextId c id) = false) /\
   exists z, or_nextId c id = Number (Int z) /\
             set c id t ov =
             {| returned := Some (Int z);
                console := warn_if_exceeds (Int z);
                state := store c (Int z) t |}) \/
  ((positive_integer (or_nextId c id) = false \/
    (ov = false /\ has c (or_nextId c id) = true)) /\
   returned (set c id t ov) = None /\ state (set c id t ov) = c).
Proof.
  unfold set. cbv zeta.
  destruct (negb ov && has c (or_nextId c id)) eqn:E.
  - right. apply andb_true_iff in E as [E1 E2]. apply negb_true_iff in E1.
    split; [right; auto|]. split; reflexivity.
  - assert (Hok : ov = true \/ has c (or_nextId c id) = false).
    { apply andb_false_iff in E as [E|E];
        [left; now apply negb_false_iff in E | now right]. }
    destruct (or_nextId c id) as [|[z|]|] eqn:Eid.
    + right. split; [left; reflexivity|]. split; reflexivity.
    + destruct (z <? 1) eqn:Ez.
      * right. split; [|split; reflexivity].
        left. simpl. apply Z.leb_gt. now apply Z.ltb_lt.
      * left. split; [simpl; apply Z.leb_le; now apply Z.ltb_ge|].
        split; [exact Hok|]. exists z. split; reflexivity.
    + right. split; [left; reflexivity|]. split; reflexivity.
    + right. split; [left; reflexivity|]. split; reflexivity.
Qed.

(** X1.  [set] stores exactly when the id, or the cursor for a missing id,
    is an integer that is at least 1 and either [override] is true or the id
    is not a key yet.  It then returns that id, the entry is found at it, and
    the console holds the capacity warning exactly when the id is above 31. *)
Theorem set_accepts_iff c id t (ov : bool) :
  (returned (set c id t ov) <> None <->
   positive_integer (or_nextId c id) = true /\
   (ov = true \/ has c (or_nextId c id) = false)) /\
  (forall k, returned (set c id t ov) = Some k ->
             or_nextId c id = Number k /\
             get (state (set c id t ov)) k = Some t /\
             console (set c id t ov)
             = if gt k (Int 31) then [warn_exceeds k] else []).
Proof.
  destruct (set_cases c id t ov)
    as [[Hpos [Hok [z [Eid Eset]]]] | [Hrej [Hret Hst]]].
  - rewrite Eset. cbn [returned state console]. split.
    + split; [auto | discriminate].
    + intros k Hk. injection Hk as <-.
      split; [exact Eid|]. split; [apply store_get | reflexivity].
  - split.
    + split; [intro H; contradiction|].
      intros [Hp Ho]. destruct Hrej as [Hr | [Hov Hhas]]; [congruence|].
      destruct Ho; congruence.
    + intros k Hk. rewrite Hret in Hk. discriminate.
Qed.

(** X2.  [set] and [add] change no entry but the one at the id they store
    at: every other key keeps its presence and its entry, whether the call
    stores or is rejected. *)
Theorem store_keeps_other_entries c t (k' : num) :
  (forall id (ov : bool),
      Number k' <> or_nextId c id ->
      get (state (set c id t ov)) k' = get c k' /\
      has (state (set c id t ov)) (Number k') = has c (Number k')) /\
  (k' <> nextId c ->
   get (state (add c t)) k' = get c k' /\
   has (state (add c t)) (Number k') = has c (Number k')).
Proof.
  split.
  - intros id ov Hne. unfold set. cbv zeta.
    destruct (negb ov && has c (or_nextId c id)); [auto|].
    destruct (or_nextId c id) as [|[z|]|]; auto.
    destruct (z <? 1); auto. cbn [state].
    assert (Hk : k' <> Int z) by congruence.
    split; [now apply Map_get_set_other | now apply Map_has_set_other].
  - intro Hne. unfold add. cbn [state].
    split; [now apply Map_get_set_other | now apply Map_has_set_other].
Qed.

(** X3.  A [set] that stores keeps every key at its place in iteration
    order: overriding an existing id leaves the keys as they were, a new id
    is appended last. *)
Theorem set_keys_in_place c (z : Z) t (ov : bool) :
  1 <= z ->
  ov = true \/ has c (Number (Int z)) = false ->
  keys (state (set c (Number (Int z)) t ov))
  = if has c (Number (Int z)) then keys c else keys c ++ [Int z].
Proof.
  intros Hz Hok. rewrite (set_accepted c z t ov Hz Hok). cbn [state has].
  apply store_keys.
Qed.

(** X4.  While the cursor is a positive integer that is not a key, [set]
    without an id does what [add] does: same id, same console output, same
    container afterwards.  With [override] the cursor may even be a key. *)
Theorem set_without_id_is_add c t (ov : bool) :
  positive_integer (Number (nextId c)) = true ->
  ov = true \/ has c (Number (nextId c)) = false ->
  set c Undefined t ov =
  {| returned := Some (returned (add c t));
     console := console (add c t);
     state := state (add c t) |}.
Proof.
  intros Hpos Hok. unfold set, add. cbv zeta. cbn [or_nextId returned console state].
  replace (negb ov && has c (Number (nextId c))) with false
    by (destruct Hok as [-> | ->]; [reflexivity | now rewrite andb_false_r]).
  destruct (nextId c) as [z|]; [|discriminate].
  simpl in Hpos. apply Z.leb_le in Hpos. apply Z.ltb_ge in Hpos.
  now rewrite Hpos.
Qed.

(** X5.  No container a program can build holds a key twice. *)
Theorem reachable_keys_distinct c : reachable c -> NoDup (keys c).
Proof.
  induction 1 as [|c id t ov _ IH|c t _ IH|c id _ IH|c _ _].
  - constructor.
  - unfold set. cbv zeta.
    destruct (negb ov && has c _); [exact IH|].
    destruct (or_nextId c id) as [|[z|]|]; try exact IH.
    destruct (z <? 1); [exact IH|]. cbn [state].
    unfold keys. rewrite store_entries. now apply Map_set_NoDup.
  - unfold add. cbn [state]. unfold keys. rewrite store_entries.
    now apply Map_set_NoDup.
  - unfold delete. destruct id as [|k|]; try exact IH.
    destruct (negb (Map_has k (entries c))); [exact IH|]. cbn [state nextId entries].
    assert (H : NoDup (map fst (Map_delete k (entries c))))
      by now apply Map_delete_NoDup.
    now destruct (gt (nextId c) k).
  - constructor.
Qed.

(** X6.  In every container a program can build, each key and the cursor
    are a positive integer or [NaN]: no key and no cursor is 0, negative or
    a value that is not a number. *)
Theorem reachable_ids_positive_or_NaN c :
  reachable c ->
  Forall id_domain (keys c) /\ id_domain (nextId c) /\
  forall z, z <= 0 -> has c (Number (Int z)) = false /\ nextId c <> Int z.
Proof.
  intro H. destruct (reachable_domain c H) as [Hk Hn].
  split; [exact Hk|]. split; [exact Hn|].
  intros z Hz. split.
  - destruct (has c (Number (Int z))) eqn:E; [|reflexivity].
    simpl in E. apply Map_has_keys in E.
    rewrite Forall_forall in Hk. specialize (Hk _ E). simpl in Hk. lia.
  - intro E. rewrite E in Hn. simpl in Hn. lia.
Qed.
End MoreMethods.

(** In ascending integer keys without repetition, one more than the key the
    scan stops at is not a key. *)
Lemma last_consecutive_free (zs : list Z) :
  StronglySorted Z.le zs -> NoDup zs ->
  match last_consecutive (map Int zs) with
  | Some (Int r) => In r zs /\ ~ In (r + 1) zs
  | Some NaN => False
  | None => zs = []
  end.
Proof.
  induction zs as [|a rest IH]; intros Hs Hd; [reflexivity|].
  apply StronglySorted_inv in Hs as [Hs Ha].
  apply NoDup_cons_iff in Hd as [Hna Hd].
  specialize (IH Hs Hd). rewrite Forall_forall in Ha.
  destruct rest as [|b rest'].
  - cbn. split; [now left|]. intros [H|[]]. lia.
  - assert (Hab : a < b).
    { assert (a <= b) by (apply Ha; now left).
      assert (a <> b) by (intro; subst; apply Hna; now left). lia. }
    change (map Int (a :: b :: rest')) with (Int a :: map Int (b :: rest')).
    remember (map Int (b :: rest')) as tl eqn:Etl.
    assert (Hhd : hd_error tl = Some (Int b)) by now subst tl.
    cbn [last_consecutive]. rewrite Hhd.
    cbn [strict_neq plus1 strict_eq].
    destruct (b =? a + 1) eqn:E; cbn [negb].
    + destruct (last_consecutive tl) as [[r|]|];
        [|exact IH|discriminate IH].
      destruct IH as [Hin Hfree]. split; [now right|].
      intros [H|H]; [|now apply Hfree].
      specialize (Ha r Hin). lia.
    + apply Z.eqb_neq in E. split; [now left|].
      intros [H|[H|H]]; [lia|lia|].
      apply StronglySorted_inv in Hs as [_ Hb]. rewrite Forall_forall in Hb.
      specialize (Hb _ H). lia.
Qed.


Lemma first_ids_split (n k : nat) :
  (1 <= k <= n)%nat ->
  first_ids n = id_run 1 (k - 1) ++ Int (Z.of_nat k) :: id_run (S k) (n - k).
Proof.
  intro Hk. rewrite first_ids_run.
  replace n with ((k - 1) + (1 + (n - k)))%nat at 1 by lia.
  rewrite id_run_app.
  replace (1 + (k - 1))%nat with k by lia.
  reflexivity.
Qed.

Lemma id_run_length (s m : nat) : List.length (id_run s m) = m.
Proof. unfold id_run. now rewrite length_map, length_seq. Qed.

Section DeleteFromRun.
Context {T : Type}.
Implicit Types (c : TerrainMap T) (t : T).

(** X10.  [clear] repairs any container: whatever its entries and cursor
    were, the [add]s that follow return 1, 2, 3, ... again. *)
Theorem clear_then_add_restarts c (ts : list T) :
  keys (clear c) = [] /\ nextId (clear c) = Int 1 /\
  fst (add_all (clear c) ts) = first_ids (List.length ts) /\
  keys (snd (add_all (clear c) ts)) = first_ids (List.length ts).
Proof.
  split; [reflexivity|]. split; [reflexivity|].
  destruct (add_all_from (clear c) ts 0 eq_refl eq_refl) as [H1 [H2 _]].
  now split.
Qed.
End DeleteFromRun.

(* ===================================================================== *)
(** ** Objects and collections keyed by strings: lookup after update      *)
(* ===================================================================== *)

Section StringKeyFacts.
Context {V : Type}.
Implicit Types (o : list (string * V)) (k : string) (v : V).

Lemma Obj_get_set_same o k v : Obj_get k (Obj_set k v o) = Some v.
Proof.
  induction o as [|[k' v'] o IH]; simpl.
  - now rewrite String.eqb_refl.
  - destruct (String.eqb k' k) eqn:E; simpl; rewrite E; auto.
Qed.

Lemma Obj_get_set_other o k k' v :
  k' <> k -> Obj_get k' (Obj_set k v o) = Obj_get k' o.
Proof.
  intro Hne. apply not_eq_sym in Hne. apply String.eqb_neq in Hne.
  induction o as [|[k0 v0] o IH]; simpl.
  - now rewrite Hne.
  - destruct (String.eqb k0 k) eqn:E; simpl.
    + apply String.eqb_eq in E. subst k0. now rewrite Hne.
    + now rewrite IH.
Qed.

Lemma Obj_has_get o k : Obj_has k o = true <-> Obj_get k o <> None.
Proof.
  induction o as [|[k' v'] o IH]; simpl; [split; [discriminate | congruence]|].
  destruct (String.eqb k' k); simpl; [split; [discriminate | reflexivity]|].
  exact IH.
Qed.

Lemma Obj_get_delete_same o k : Obj_get k (Obj_delete k o) = None.
Proof.
  induction o as [|[k' v'] o IH]; simpl; [reflexivity|].
  destruct (String.eqb k' k) eqn:E; simpl; [exact IH|].
  now rewrite E.
Qed.

Lemma Obj_get_delete_other o k k' :
  k' <> k -> Obj_get k' (Obj_delete k o) = Obj_get k' o.
Proof.
  intro Hne. apply not_eq_sym in Hne. apply String.eqb_neq in Hne.
  induction o as [|[k0 v0] o IH]; simpl; [reflexivity|].
  destruct (String.eqb k0 k) eqn:E; simpl.
  - apply String.eqb_eq in E. subst k0. now rewrite Hne.
  - now rewrite IH.
Qed.

Lemma Obj_delete_length o k : (List.length (Obj_delete k o) <= List.length o)%nat.
Proof. apply filter_length_le. Qed.
End StringKeyFacts.

(* ===================================================================== *)
(** ** Terrain: colours, updateSource and the elevation range            *)
(* ===================================================================== *)

Section NextColorFacts.
Context {Color : Type} (COLORS : list Color).

Lemma nextColor_times_from (n colorId : nat) :
  nextColor_times COLORS n colorId
  = (map (nth_error COLORS) (seq colorId n), (colorId + n)%nat).
Proof.
  revert colorId. induction n as [|n IH]; intro colorId.
  - cbn. now rewrite Nat.add_0_r.
  - cbn [nextColor_times nextColor seq map]. rewrite IH.
    f_equal. lia.
Qed.

Lemma nth_error_prefix (l : list Color) (n : nat) :
  map (nth_error l) (seq 0 n)
  = map Some (firstn n l) ++ repeat None (n - List.length l).
Proof.
  revert n. induction l as [|c l IH]; intro n.
  - rewrite firstn_nil, Nat.sub_0_r. cbn [map app List.length].
    induction n as [|n IHn]; [reflexivity|].
    rewrite seq_S, map_app, IHn. cbn [map Nat.add].
    rewrite nth_error_nil. now rewrite <- repeat_cons.
  - destruct n as [|n]; [reflexivity|].
    cbn [seq map firstn app List.length Nat.sub nth_error]. f_equal.
    rewrite <- seq_shift, map_map. cbn [nth_error]. apply IH.
Qed.

(** X11.  Starting from the counter at 0, [n] calls of [Terrain.nextColor]
    return the first [n] colours of the palette in order; once the palette is
    used up every further call returns [undefined], and the counter has
    advanced by one per call. *)
Theorem nextColor_sequence (n : nat) :
  nextColor_times COLORS n 0
  = (map Some (firstn n COLORS) ++ repeat None (n - List.length COLORS), n).
Proof. now rewrite nextColor_times_from, nth_error_prefix. Qed.
End NextColorFacts.

Section UpdateSourceFacts.
Context {V : Type}.
Variables (truthy : V -> bool)
          (ActiveEffect_updateSource : V -> V -> V)
          (new_ActiveEffect : V -> V).

Local Abbreviation step :=
  (updateSource_entry truthy ActiveEffect_updateSource new_ActiveEffect).
Local Abbreviation run :=
  (updateSource truthy ActiveEffect_updateSource new_ActiveEffect).

Lemma updateSource_entry_other (config : list (string * V)) key value k :
  k <> key -> Obj_get k (step config (key, value)) = Obj_get k config.
Proof.
  intro Hne. unfold updateSource_entry.
  destruct (String.eqb key "id"); [reflexivity|].
  destruct (String.eqb key "activeEffect") eqn:E.
  - apply String.eqb_eq in E. subst key. now apply Obj_get_set_other.
  - now apply Obj_get_set_other.
Qed.

Lemma updateSource_entry_id (config : list (string * V)) entry :
  Obj_get "id" (step config entry) = Obj_get "id" config.
Proof.
  destruct entry as [key value].
  destruct (String.eqb key "id") eqn:E.
  - unfold updateSource_entry. now rewrite E.
  - apply updateSource_entry_other. apply String.eqb_neq in E. congruence.
Qed.

Lemma updateSource_absent (config json : list (string * V)) k :
  ~ In k (map fst json) -> Obj_get k (run config json) = Obj_get k config.
Proof.
  revert config. induction json as [|[key value] json IH]; intros config Hk.
  - reflexivity.
  - cbn [map fst In] in Hk. unfold updateSource in *. cbn [fold_left].
    rewrite IH by tauto.
    apply updateSource_entry_other. intro E. apply Hk. now left.
Qed.

Lemma updateSource_present (config json : list (string * V)) key value r :
  NoDup (map fst json) -> In (key, value) json ->
  (forall config', Obj_get key config' = Obj_get key config ->
                   Obj_get key (step config' (key, value)) = Some r) ->
  Obj_get key (run config json) = Some r.
Proof.
  revert config. induction json as [|[k0 v0] json IH]; intros config Hd Hin Hstep.
  - contradiction.
  - cbn [map fst] in Hd. apply NoDup_cons_iff in Hd as [Hfresh Hd].
    change (run config ((k0, v0) :: json)) with (run (step config (k0, v0)) json).
    destruct Hin as [E | Hin].
    + injection E as -> ->. rewrite updateSource_absent by exact Hfresh.
      now apply Hstep.
    + assert (Hne : key <> k0).
      { intros ->. apply Hfresh. apply in_map_iff. now exists (k0, value). }
      apply IH; [exact Hd | exact Hin|].
      intros config' Hc. apply Hstep. rewrite Hc.
      now apply updateSource_entry_other.
Qed.

(** X12.  [updateSource(json)] never changes [config.id]; it leaves every
    property that [json] does not name as it was; every other property of
    [json] but [id] and [activeEffect] is copied to [config]; and
    [activeEffect] becomes what the effect's own [updateSource] returns when
    [config] holds a truthy effect, a new [ActiveEffect] otherwise. *)
Theorem updateSource_spec (config json : list (string * V)) :
  ~ In "__proto__"%string (map fst json) ->
  NoDup (map fst json) ->
  Obj_get "id" (run config json) = Obj_get "id" config /\
  (forall key, ~ In key (map fst json) ->
               Obj_get key (run config json) = Obj_get key config) /\
  (forall key value,
      In (key, value) json -> key <> "id"%string -> key <> "activeEffect"%string ->
      Obj_get key (run config json) = Some value) /\
  (forall value,
      In ("activeEffect"%string, value) json ->
      Obj_get "activeEffect" (run config json)
      = Some (match Obj_get "activeEffect" config with
              | Some effect =>
                  if truthy effect then ActiveEffect_updateSource effect value
                  else new_ActiveEffect value
              | None => new_ActiveEffect value
              end)).
Proof.
  intros _ Hd. split; [|split; [|split]].
  - unfold updateSource. clear Hd. revert config.
    induction json as [|entry json IH]; intro config; [reflexivity|].
    cbn [fold_left]. rewrite IH. apply updateSource_entry_id.
  - intros key Hk. now apply updateSource_absent.
  - intros key value Hin Hid Hae.
    apply (updateSource_present config json key value value Hd Hin).
    intros config' _. unfold updateSource_entry.
    apply String.eqb_neq in Hid, Hae. rewrite Hid, Hae.
    apply Obj_get_set_same.
  - intros value Hin.
    apply (updateSource_present config json "activeEffect" value _ Hd Hin).
    intros config' Hc. unfold updateSource_entry.
    change (String.eqb "activeEffect" "id") with false.
    change (String.eqb "activeEffect" "activeEffect") with true.
    cbv iota. rewrite Obj_get_set_same, Hc. reflexivity.
Qed.
End UpdateSourceFacts.


(* ===================================================================== *)
(** ** UniqueActiveEffect: what the local add and remove do to a token    *)
(* ===================================================================== *)

Section LocallyFacts.
Import UniqueActiveEffect.
Context {Effect Doc AE : Type}.
Variables (document : Effect -> Doc)
          (createDocument : Doc -> AE)
          (id : AE -> string)
          (tokenDocumentsForUniqueEffects :
             @Token AE -> list Effect -> bool -> list AE).
Implicit Types (es : list (string * AE)) (k : string).

Lemma store_all_map (effs : list Effect) es :
  fold_left (fun es effect =>
               let ae := createDocument (document effect) in
               Obj_set (id ae) ae es) effs es
  = fold_left (fun es ae => Obj_set (id ae) ae es)
              (map (fun e => createDocument (document e)) effs) es.
Proof.
  revert es. induction effs as [|e effs IH]; intro es; [reflexivity|].
  cbn [fold_left map]. apply IH.
Qed.

Lemma store_all_absent (aes : list AE) es k :
  ~ In k (map id aes) ->
  Obj_get k (fold_left (fun es ae => Obj_set (id ae) ae es) aes es) = Obj_get k es.
Proof.
  revert es. induction aes as [|a aes IH]; intros es Hk; [reflexivity|].
  cbn [fold_left map In] in *. rewrite IH by tauto.
  apply Obj_get_set_other. intro E. apply Hk. now left.
Qed.

Lemma store_all_keeps (aes : list AE) es k :
  Obj_get k es <> None ->
  Obj_get k (fold_left (fun es ae => Obj_set (id ae) ae es) aes es) <> None.
Proof.
  revert es. induction aes as [|a aes IH]; intros es Hk; [exact Hk|].
  cbn [fold_left]. apply IH.
  destruct (string_dec k (id a)) as [->|Hne].
  - rewrite Obj_get_set_same. discriminate.
  - now rewrite Obj_get_set_other.
Qed.

Lemma store_all_present (aes : list AE) es (ae : AE) :
  In ae aes ->
  Obj_has (id ae) (fold_left (fun es ae => Obj_set (id ae) ae es) aes es) = true /\
  (NoDup (map id aes) ->
   Obj_get (id ae) (fold_left (fun es ae => Obj_set (id ae) ae es) aes es) = Some ae).
Proof.
  revert es. induction aes as [|a aes IH]; intros es Hin; [contradiction|].
  cbn [fold_left map]. destruct Hin as [-> | Hin].
  - split.
    + apply Obj_has_get, store_all_keeps. rewrite Obj_get_set_same. discriminate.
    + intro Hd. apply NoDup_cons_iff in Hd as [Hfresh _].
      rewrite store_all_absent by exact Hfresh. apply Obj_get_set_same.
  - destruct (IH (Obj_set (id a) a es) Hin) as [H1 H2]. split; [exact H1|].
    intro Hd. apply NoDup_cons_iff in Hd as [_ Hd]. now apply H2.
Qed.

Lemma delete_all_gone (ids : list string) es k :
  In k ids -> Obj_get k (fold_left (fun es i => Obj_delete i es) ids es) = None.
Proof.
  revert es. induction ids as [|i ids IH]; intros es Hin; [contradiction|].
  cbn [fold_left].
  destruct (in_dec string_dec k ids) as [Hk|Hk]; [now apply IH|].
  destruct Hin as [-> | Hin]; [|contradiction].
  clear IH. revert es. induction ids as [|j ids IH]; intro es.
  - apply Obj_get_delete_same.
  - cbn [fold_left].
    assert (Hj : k <> j) by (intro; subst; apply Hk; now left).
    assert (Hk' : ~ In k ids) by (intro; apply Hk; now right).
    assert (Hswap : forall es', Obj_get k es' = None ->
              Obj_get k (fold_left (fun es i => Obj_delete i es) ids es') = None).
    { clear -Hk'. induction ids as [|i ids IH]; intros es' H; [exact H|].
      cbn [fold_left]. apply IH.
      - intro Hin. apply Hk'. now right.
      - rewrite Obj_get_delete_other; [exact H|].
        intro; subst. apply Hk'. now left. }
    apply Hswap. rewrite Obj_get_delete_other by exact Hj.
    apply Obj_get_delete_same.
Qed.

Lemma delete_all_other (ids : list string) es k :
  ~ In k ids ->
  Obj_get k (fold_left (fun es i => Obj_delete i es) ids es) = Obj_get k es.
Proof.
  revert es. induction ids as [|i ids IH]; intros es Hk; [reflexivity|].
  cbn [fold_left]. rewrite IH by (intro; apply Hk; now right).
  apply Obj_get_delete_other. intro; subst. apply Hk. now left.
Qed.

Lemma delete_all_length (ids : list string) es :
  (List.length (fold_left (fun es i => Obj_delete i es) ids es) <= List.length es)%nat.
Proof.
  revert es. induction ids as [|i ids IH]; intro es; [reflexivity|].
  cbn [fold_left]. etransitivity; [apply IH | apply Obj_delete_length].
Qed.

(** X14.  [_addToTokenLocally] returns false and leaves the token alone when
    it has no actor.  Otherwise it returns true, also for an empty list of
    effects; afterwards the document created for each effect is in the
    actor's effects under its id (the effect itself when the ids created are
    distinct) and every entry under another id is as it was. *)
Theorem addToTokenLocally_spec (token : @Token AE) (effs : list Effect) :
  let created := map (fun e => createDocument (document e)) effs in
  let r := _addToTokenLocally document createDocument id token effs in
  (actor token = None -> r = (false, token)) /\
  (forall a, actor token = Some a ->
             exists a', r = (true, {| actor := Some a' |}) /\
                        (forall ae, In ae created ->
                                    Obj_has (id ae) (effects a') = true) /\
                        (NoDup (map id created) ->
                         forall ae, In ae created ->
                                    Obj_get (id ae) (effects a') = Some ae) /\
                        (forall k, ~ In k (map id created) ->
                                   Obj_get k (effects a') = Obj_get k (effects a))).
Proof.
  intros created r. subst r. unfold _addToTokenLocally. split.
  - intros ->. reflexivity.
  - intros a ->. eexists. split; [reflexivity|]. cbn [effects].
    rewrite store_all_map. fold created. split; [|split].
    + intros ae Hae. now apply store_all_present.
    + intros Hd ae Hae. now apply store_all_present.
    + intros k Hk. now apply store_all_absent.
Qed.

(** X15.  [_removeFromTokenLocally] returns false exactly when the token has
    no actor or no document of the token matches the effects, and then leaves
    the token alone.  Otherwise it returns true; afterwards none of the
    matching ids is in the actor's effects, every other entry is as it was,
    and the effects have not grown. *)
Theorem removeFromTokenLocally_spec
        (token : @Token AE) (effs : list Effect) (removeAllDuplicates : bool) :
  let ids := map id (tokenDocumentsForUniqueEffects token effs removeAllDuplicates) in
  let r := _removeFromTokenLocally id tokenDocumentsForUniqueEffects
                                   token effs removeAllDuplicates in
  (fst r = false <-> actor token = None \/ ids = []) /\
  (fst r = false -> snd r = token) /\
  (forall a, actor token = Some a -> ids <> [] ->
             exists a', r = (true, {| actor := Some a' |}) /\
                        (forall k, In k ids -> Obj_get k (effects a') = None) /\
                        (forall k, ~ In k ids ->
                                   Obj_get k (effects a') = Obj_get k (effects a)) /\
                        (List.length (effects a') <= List.length (effects a))%nat).
Proof.
  intros ids r. subst r. unfold _removeFromTokenLocally. fold ids.
  destruct (actor token) as [a|] eqn:Ea.
  - destruct ids as [|i ids'] eqn:Eids.
    + split; [|split].
      * split; [now right | reflexivity].
      * reflexivity.
      * intros a0 _ H. contradiction.
    + split; [|split].
      * cbn [fst]. split; [discriminate | intros [H|H]; discriminate].
      * cbn [fst]. discriminate.
      * intros a0 E _. injection E as <-. eexists. split; [reflexivity|].
        cbn [effects]. split; [|split].
        -- intros k Hk. now apply delete_all_gone.
        -- intros k Hk. now apply delete_all_other.
        -- apply delete_all_length.
  - split; [|split].
    + split; [now left | reflexivity].
    + reflexivity.
    + intros a0 E. discriminate.
Qed.
End LocallyFacts.

(* ===================================================================== *)
(** ** The properties above at work                                      *)
(* ===================================================================== *)

Section MoreRuns.
Local Open Scope string_scope.

(** X2 on the container that holds "a" at 1: storing at 2 leaves the entry
    at 1 alone, by [set] and by [add]. *)
Lemma store_keeps_other_entries_witness :
  let c := state (add new "a") in
  (get (state (set c (Number (Int 2)) "b" false)) (Int 1) = get c (Int 1) /\
   has (state (set c (Number (Int 2)) "b" false)) (Number (Int 1))
   = has c (Number (Int 1))) /\
  (get (state (add c "b")) (Int 1) = get c (Int 1) /\
   has (state (add c "b")) (Number (Int 1)) = has c (Number (Int 1))).
Proof.
  intro c.
  destruct (store_keeps_other_entries c "b" (Int 1)) as [Hset Hadd].
  split; [apply Hset | apply Hadd]; discriminate.
Defined.

(** X3: overriding the entry at 1. *)
Lemma set_keys_in_place_witness :
  let c := state (add new "a") in
  keys (state (set c (Number (Int 1)) "b" true))
  = if has c (Number (Int 1)) then keys c else (keys c ++ [Int 1])%list.
Proof.
  intro c. apply (set_keys_in_place c 1 "b" true); [lia | now left].
Defined.

(** X4 on a fresh container. *)
Lemma set_without_id_is_add_witness :
  set new Undefined "a" false =
  {| returned := Some (returned (add new "a"));
     console := console (add new "a");
     state := state (add new "a") |}.
Proof.
  apply (set_without_id_is_add new "a" false); [reflexivity | now right].
Defined.

(** X5 after two [add]s. *)
Lemma reachable_keys_distinct_witness :
  NoDup (keys (state (add (state (add new "a")) "b"))).
Proof.
  apply reachable_keys_distinct. apply reach_add, reach_add, reach_new.
Defined.

(** X6 after [add], [delete(1)], [add], where the key is [NaN]. *)
Lemma reachable_ids_positive_or_NaN_witness :
  let c := state (add (state (delete (state (add new "a")) (Number (Int 1)))) "b") in
  Forall id_domain (keys c) /\ id_domain (nextId c) /\
  forall z, (z <= 0)%Z -> has c (Number (Int z)) = false /\ nextId c <> Int z.
Proof.
  intro c. apply reachable_ids_positive_or_NaN.
  apply reach_add, reach_delete, reach_add, reach_new.
Defined.

(** X12: a configuration with id 7 updated from a source that names another
    id, a new name and an offset. *)
Lemma updateSource_spec_witness :
  let config := [("id", "7"); ("name", "Swamp")] in
  let json := [("id", "9"); ("name", "Bog"); ("offset", "2")] in
  let after := updateSource (fun v => negb (String.eqb v ""))
                            (fun effect value => value) (fun value => value)
                            config json in
  Obj_get "id" after = Some "7" /\
  Obj_get "name" after = Some "Bog" /\
  Obj_get "offset" after = Some "2" /\
  Obj_get "color" after = None.
Proof.
  intros config json after.
  assert (Hp : ~ In "__proto__" (map fst json))
    by (simpl; intuition discriminate).
  assert (Hd : NoDup (map fst json))
    by (repeat constructor; simpl; intuition discriminate).
  destruct (updateSource_spec (fun v => negb (String.eqb v ""))
                              (fun effect value => value) (fun value => value)
                              config json Hp Hd)
    as [Hid [Hkeep [Hcopy _]]].
  split; [exact Hid|]. split; [|split].
  - apply Hcopy; [simpl; auto | discriminate | discriminate].
  - apply Hcopy; [simpl; auto | discriminate | discriminate].
  - subst after. rewrite (Hkeep "color"); [reflexivity|].
    simpl. intuition discriminate.
Defined.

(** X14 and X15 with documents stood for by their ids: "y" added to, then
    removed from, the token of an actor that has "x". *)
Lemma addToTokenLocally_spec_witness :
  let token := UniqueActiveEffect.mkToken
                 (Some (UniqueActiveEffect.mkActor [("x", "x")])) in
  exists a',
    UniqueActiveEffect._addToTokenLocally (fun e : string => e) (fun d => d)
                                          (fun ae => ae) token ["y"]
    = (true, UniqueActiveEffect.mkToken (Some a')) /\
    Obj_get "y" (UniqueActiveEffect.effects a') = Some "y" /\
    Obj_get "x" (UniqueActiveEffect.effects a') = Some "x".
Proof.
  intro token.
  destruct (addToTokenLocally_spec (fun e : string => e) (fun d => d)
                                   (fun ae => ae) token ["y"])
    as [_ H].
  destruct (H _ eq_refl) as [a' [Hr [_ [Hget Hother]]]].
  exists a'. split; [exact Hr|]. split.
  - apply (Hget (NoDup_cons "y" (fun H : In "y" [] => H) (NoDup_nil _)) "y").
    now left.
  - rewrite (Hother "x"); [reflexivity|]. simpl. intuition discriminate.
Defined.

Lemma removeFromTokenLocally_spec_witness :
  let token := UniqueActiveEffect.mkToken
                 (Some (UniqueActiveEffect.mkActor [("x", "x"); ("y", "y")])) in
  exists a',
    UniqueActiveEffect._removeFromTokenLocally
      (fun ae : string => ae) (fun _ (effs : list string) _ => effs)
      token ["y"] true
    = (true, UniqueActiveEffect.mkToken (Some a')) /\
    Obj_get "y" (UniqueActiveEffect.effects a') = None /\
    Obj_get "x" (UniqueActiveEffect.effects a') = Some "x".
Proof.
  intro token.
  destruct (removeFromTokenLocally_spec
              (fun ae : string => ae) (fun _ (effs : list string) _ => effs)
              token ["y"] true)
    as [_ [_ H]].
  destruct (H _ eq_refl) as [a' [Hr [Hgone [Hother _]]]]; [discriminate|].
  exists a'. split; [exact Hr|]. split.
  - apply Hgone. now left.
  - rewrite (Hother "x"); [reflexivity|]. simpl. intuition discriminate.
Defined.
End MoreRuns.

(* ===================================================================== *)
(** ** Keys in any insertion order                                       *)
(* ===================================================================== *)

Lemma sorted_permutation_unique (l1 l2 : list Z) :
  StronglySorted Z.le l1 -> StronglySorted Z.le l2 -> Permutation l1 l2 ->
  l1 = l2.
Proof.
  revert l2. induction l1 as [|a l1 IH]; intros l2 H1 H2 Hp.
  - now apply Permutation_nil in Hp.
  - destruct l2 as [|b l2];
      [apply Permutation_sym, Permutation_nil in Hp; discriminate|].
    apply StronglySorted_inv in H1 as [H1 Ha].
    apply StronglySorted_inv in H2 as [H2 Hb].
    rewrite Forall_forall in Ha, Hb.
    assert (E : a = b).
    { assert (Hb' : In b (a :: l1))
        by (apply (Permutation_in _ (Permutation_sym Hp)); now left).
      assert (Ha' : In a (b :: l2)) by (apply (Permutation_in _ Hp); now left).
      destruct Hb' as [->|Hb']; [reflexivity|].
      destruct Ha' as [<-|Ha']; [reflexivity|].
      specialize (Ha _ Hb'). specialize (Hb _ Ha'). lia. }
    subst b. f_equal. apply IH; auto. now apply Permutation_cons_inv in Hp.
Qed.

(** Whatever the insertion order of integer keys, sorting gives the
    ascending list of them. *)
Lemma Array_sort_permutation (l L : list num) :
  Permutation l L -> ascending_ids L -> Array_sort l = L.
Proof.
  intros Hp [zs [-> Hs]].
  apply Permutation_map_inv in Hp as [l3 [-> Hp3]].
  destruct (Array_sort_integers l3) as [zs' [E [Hs' Hp']]].
  rewrite E. f_equal. apply sorted_permutation_unique; auto.
  apply Permutation_sym. now apply (Permutation_trans Hp3).
Qed.

Lemma ascending_first_ids (n : nat) : ascending_ids (first_ids n).
Proof.
  exists (map Z.of_nat (seq 1 n)). split.
  - unfold first_ids. now rewrite map_map.
  - generalize 1%nat. induction n as [|n IH]; intro s; cbn [seq map];
      constructor; [apply IH|].
    apply Forall_forall. intros x Hx. apply in_map_iff in Hx as [i [<- Hi]].
    apply in_seq in Hi. lia.
Qed.

Lemma ascending_filter (f : num -> bool) (L : list num) :
  ascending_ids L -> ascending_ids (filter f L).
Proof.
  intros [zs [-> Hs]]. exists (filter (fun z => f (Int z)) zs). split.
  - clear Hs. induction zs as [|z zs IH]; [reflexivity|].
    cbn [map filter]. destruct (f (Int z)); cbn [map]; now rewrite IH.
  - induction Hs as [|z zs _ IH Hz]; cbn [filter]; [constructor|].
    destruct (f (Int z)); [|exact IH]. constructor; [exact IH|].
    rewrite Forall_forall in *. intros x Hx.
    apply filter_In in Hx as [Hx _]. now apply Hz.
Qed.

Lemma Permutation_filter_same {A : Type} (f : A -> bool) (l l' : list A) :
  Permutation l l' -> Permutation (filter f l) (filter f l').
Proof.
  induction 1 as [|x l l' _ IH|x y l|l l' l'' _ IH1 _ IH2]; cbn [filter].
  - constructor.
  - destruct (f x); [now constructor | exact IH].
  - destruct (f x), (f y); try apply Permutation_refl. apply perm_swap.
  - now apply (Permutation_trans IH1).
Qed.

Section AnyOrder.
Context {T : Type}.
Implicit Types (c : TerrainMap T) (t : T).

Lemma findNextId_of_permutation c (L : list num) :
  strict_eq (size c) (minus1 (nextId c)) = false ->
  Permutation (keys c) L -> ascending_ids L ->
  findNextId c = plus1 (last_consecutive L).
Proof.
  intros Hsize Hp HL. rewrite (findNextId_scan c Hsize).
  now rewrite (Array_sort_permutation _ _ Hp HL).
Qed.

(** [delete(k)] of a key below an integer cursor, when the keys are integers
    and the shortcut of [#findNextId] does not apply. *)
Lemma delete_scan c (k z : Z) (L : list num) :
  Permutation (keys c) L -> ascending_ids L -> In (Int k) L ->
  nextId c = Int z -> k < z ->
  z - 1 <> Z.of_nat
             (List.length (filter (fun x => negb (same_value_zero x (Int k))) L)) ->
  let r := delete c (Number (Int k)) in
  returned r = true /\
  entries (state r) = Map_delete (Int k) (entries c) /\
  keys (state r) = filter (fun x => negb (same_value_zero x (Int k))) (keys c) /\
  nextId (state r)
  = plus1 (last_consecutive
             (filter (fun x => negb (same_value_zero x (Int k))) L)).
Proof.
  intros Hp HL Hin Hnext Hlt Hsize r.
  assert (Hhas : Map_has (Int k) (entries c) = true).
  { apply Map_has_keys. fold (keys c).
    now apply (Permutation_in _ (Permutation_sym Hp)). }
  subst r. unfold delete. rewrite Hhas. cbn [negb returned state nextId entries].
  rewrite Hnext. cbn [gt]. apply Z.ltb_lt in Hlt. rewrite Hlt.
  cbn [entries nextId]. split; [reflexivity|]. split; [reflexivity|].
  split; [apply Map_delete_keys_filter|].
  apply findNextId_of_permutation.
  - rewrite size_keys. unfold keys. cbn [entries nextId minus1 strict_eq].
    rewrite Map_delete_keys_filter. fold (keys c).
    rewrite (Permutation_length
               (Permutation_filter_same
                  (fun x => negb (same_value_zero x (Int k))) _ _ Hp)).
    apply Z.eqb_neq. lia.
  - unfold keys. cbn [entries]. rewrite Map_delete_keys_filter.
    now apply Permutation_filter_same.
  - now apply ascending_filter.
Qed.

(** [add] at an integer cursor that is not a key, when the keys are integers
    and the shortcut of [#findNextId] does not apply. *)
Lemma add_scan c t (z : Z) (L : list num) :
  nextId c = Int z -> Map_has (Int z) (entries c) = false ->
  Permutation (keys c ++ [Int z]) L -> ascending_ids L ->
  z - 1 <> Z.of_nat (List.length L) ->
  let r := add c t in
  returned r = Int z /\
  get (state r) (Int z) = Some t /\
  keys (state r) = keys c ++ [Int z] /\
  nextId (state r) = plus1 (last_consecutive L).
Proof.
  intros Hnext Hfresh Hp HL Hsize r. subst r. unfold add. cbn [returned state].
  rewrite Hnext.
  assert (Hkeys : keys (store c (Int z) t) = keys c ++ [Int z])
    by (rewrite store_keys; now rewrite Hfresh).
  split; [reflexivity|]. split; [apply store_get|]. split; [exact Hkeys|].
  unfold store. cbn [entries nextId].
  apply findNextId_of_permutation.
  - rewrite size_keys.
    change (keys {| entries := Map_set (Int z) t (entries c); nextId := nextId c |})
      with (keys (store c (Int z) t)).
    rewrite Hkeys, (Permutation_length Hp). cbn [nextId]. rewrite Hnext.
    cbn [minus1 strict_eq]. apply Z.eqb_neq. lia.
  - change (keys {| entries := Map_set (Int z) t (entries c); nextId := nextId c |})
      with (keys (store c (Int z) t)).
    now rewrite Hkeys.
  - exact HL.
Qed.
End AnyOrder.


Section DeleteAndReuse.
Context {T : Type}.
Implicit Types (c : TerrainMap T) (t : T).


(** X7.  When the keys are distinct integers of magnitude below 2^53 and the
    shortcut of [#findNextId] does not apply, the cursor it computes is never
    a key: on an empty container it is [NaN], otherwise it is one more than
    some key and not a key itself. *)
Theorem findNextId_scan_is_free c (zs : list Z) :
  keys c = map Int zs ->
  NoDup zs ->
  Forall safe_integer zs ->
  strict_eq (size c) (minus1 (nextId c)) = false ->
  has c (Number (findNextId c)) = false /\
  (zs = [] -> findNextId c = NaN) /\
  (zs <> [] -> exists r, In r zs /\ findNextId c = Int (r + 1)).
Proof.
  intros Hkeys Hd _ Hsize.
  rewrite (findNextId_scan c Hsize), Hkeys.
  destruct (Array_sort_integers zs) as [zs' [E [Hs Hp]]]. rewrite E.
  pose proof (last_consecutive_free zs' Hs (Permutation_NoDup Hp Hd)) as Hfree.
  destruct (last_consecutive (map Int zs')) as [[r|]|]; [|contradiction|].
  - destruct Hfree as [Hin Hfree]. cbn [plus1]. split; [|split].
    + destruct (has c (Number (Int (r + 1)))) eqn:Eh; [|reflexivity].
      simpl in Eh. apply Map_has_keys in Eh. fold (keys c) in Eh.
      rewrite Hkeys in Eh. apply in_map_iff in Eh as [x [Ex Hx]].
      injection Ex as ->. contradiction Hfree. now apply (Permutation_in _ Hp).
    + intros ->. apply Permutation_nil in Hp. subst zs'. contradiction.
    + intros _. exists r. split; [|reflexivity].
      now apply (Permutation_in _ (Permutation_sym Hp)).
  - subst zs'. apply Permutation_sym, Permutation_nil in Hp. subst zs.
    cbn [plus1]. split; [|split]; [|reflexivity|congruence].
    simpl. destruct (Map_has NaN (entries c)) eqn:Eh; [|reflexivity].
    apply Map_has_keys in Eh. fold (keys c) in Eh. rewrite Hkeys in Eh.
    contradiction.
Qed.

(** X8.  Id reuse.  On a container that holds exactly the ids 1..n, in any
    insertion order, with the cursor at n + 1, [delete(k)] for 2 <= k <= n
    returns true and moves the cursor down to k; the next [add] returns k,
    after which the container holds exactly 1..n again and the cursor is back
    at n + 1. *)
Theorem delete_then_add_reuses_id c t (n k : nat) :
  Permutation (keys c) (first_ids n) ->
  nextId c = Int (Z.of_nat (S n)) ->
  (2 <= k <= n)%nat ->
  let r := delete c (Number (Int (Z.of_nat k))) in
  let r' := add (state r) t in
  returned r = true /\ nextId (state r) = Int (Z.of_nat k) /\
  returned r' = Int (Z.of_nat k) /\
  Permutation (keys (state r')) (first_ids n) /\
  nextId (state r') = Int (Z.of_nat (S n)).
Proof.
  intros Hp Hnext Hk r r'.
  assert (Hk1 : (1 <= k <= n)%nat) by lia.
  assert (Hin : In (Int (Z.of_nat k)) (first_ids n)).
  { rewrite first_ids_run. apply id_run_In. exists k. split; [reflexivity|lia]. }
  destruct (delete_scan c (Z.of_nat k) (Z.of_nat (S n)) _ Hp
                        (ascending_first_ids n) Hin Hnext)
    as [Hret [Hentries [Hkeys Hcur]]].
  { lia. }
  { rewrite (first_ids_remove n k Hk1), length_app, !id_run_length. lia. }
  fold r in Hret, Hentries, Hkeys, Hcur.
  rewrite (first_ids_remove n k Hk1) in Hcur.
  replace (k - 1)%nat with (S (k - 2)) in Hcur by lia.
  rewrite last_consecutive_run in Hcur.
  2:{ destruct (n - k)%nat; [reflexivity|].
      cbn [id_run seq map hd_error strict_neq strict_eq].
      apply negb_true_iff, Z.eqb_neq. lia. }
  cbn [plus1] in Hcur.
  replace (Z.of_nat (1 + (k - 2)) + 1) with (Z.of_nat k) in Hcur by lia.
  assert (Hfresh : Map_has (Int (Z.of_nat k)) (entries (state r)) = false)
    by (rewrite Hentries; apply Map_has_delete).
  assert (Hp2 : Permutation (keys (state r) ++ [Int (Z.of_nat k)]) (first_ids n)).
  { rewrite Hkeys.
    apply (Permutation_trans
             (Permutation_app_tail _
                (Permutation_filter_same
                   (fun x => negb (same_value_zero x (Int (Z.of_nat k)))) _ _ Hp))).
    rewrite (first_ids_remove n k Hk1), (first_ids_split n k Hk1), <- app_assoc.
    apply Permutation_app_head. apply Permutation_sym, Permutation_cons_append. }
  destruct (add_scan (state r) t (Z.of_nat k) _ Hcur Hfresh Hp2
                     (ascending_first_ids n))
    as [A1 [_ [A3 A4]]].
  { unfold first_ids. rewrite length_map, length_seq. lia. }
  fold r' in A1, A3, A4.
  split; [exact Hret|]. split; [exact Hcur|]. split; [exact A1|].
  split; [now rewrite A3|].
  rewrite A4. destruct n as [|n']; [lia|]. rewrite first_ids_find.
  cbn [plus1]. f_equal. lia.
Qed.

(** X9.  The lowest id is not recycled.  On a container that holds exactly
    the ids 1..n, n >= 2, in any insertion order, with the cursor at n + 1,
    [delete(1)] returns true and leaves the cursor at n + 1, although 1 is
    now the smallest unused id; the next [add] returns n + 1. *)
Theorem delete_first_id_keeps_cursor c t (n : nat) :
  Permutation (keys c) (first_ids n) ->
  nextId c = Int (Z.of_nat (S n)) ->
  (2 <= n)%nat ->
  let r := delete c (Number (Int 1)) in
  returned r = true /\
  smallest_unused (state r) 1 /\
  nextId (state r) = Int (Z.of_nat (S n)) /\
  returned (add (state r) t) = Int (Z.of_nat (S n)).
Proof.
  intros Hp Hnext Hn r.
  assert (Hk1 : (1 <= 1 <= n)%nat) by lia.
  assert (Hin : In (Int 1) (first_ids n)).
  { rewrite first_ids_run. apply id_run_In. exists 1%nat. split; [reflexivity|lia]. }
  destruct (delete_scan c 1 (Z.of_nat (S n)) _ Hp
                        (ascending_first_ids n) Hin Hnext)
    as [Hret [Hentries [Hkeys Hcur]]].
  { lia. }
  { change 1 with (Z.of_nat 1) at 2.
    rewrite (first_ids_remove n 1 Hk1), length_app, !id_run_length. lia. }
  fold r in Hret, Hentries, Hkeys, Hcur.
  change (Int 1) with (Int (Z.of_nat 1)) in Hcur.
  rewrite (first_ids_remove n 1 Hk1) in Hcur.
  cbn [Nat.sub id_run seq map app] in Hcur. fold (id_run 2 (n - 1)) in Hcur.
  replace (n - 1)%nat with (S (n - 2)) in Hcur by lia.
  rewrite <- (app_nil_r (id_run 2 (S (n - 2)))) in Hcur.
  rewrite last_consecutive_run in Hcur by reflexivity.
  cbn [plus1] in Hcur.
  replace (Z.of_nat (2 + (n - 2)) + 1) with (Z.of_nat (S n)) in Hcur by lia.
  split; [exact Hret|]. split; [|split; [exact Hcur | exact Hcur]].
  split; [lia|]. split; [|intros m Hm; lia].
  cbn [has]. rewrite Hentries. apply Map_has_delete.
Qed.
End DeleteAndReuse.

(* ===================================================================== *)
(** ** The elevation range of a terrain                                  *)
(* ===================================================================== *)






Section Elevation.
Import PrimFloat.
Import Terrain.



End Elevation.

(* ===================================================================== *)
(** ** Containers with the keys 1, 2, 3, 4                               *)
(* ===================================================================== *)

Section KeysOneToFour.
Local Open Scope string_scope.

Lemma shuffled_keys : Permutation (keys shuffled) (first_ids 4).
Proof.
  apply NoDup_Permutation;
    [repeat constructor; simpl; intuition discriminate
    |repeat constructor; simpl; intuition discriminate
    |intro x; simpl; tauto].
Defined.



(** X7 on the keys 3, 1, 2, 7 with the cursor at 1. *)
Lemma findNextId_scan_is_free_witness :
  let c := {| entries := [(Int 3, "a"); (Int 1, "b"); (Int 2, "c"); (Int 7, "d")];
              nextId := Int 1 |} in
  has c (Number (findNextId c)) = false /\
  ([3; 1; 2; 7]%Z = [] -> findNextId c = NaN) /\
  ([3; 1; 2; 7]%Z <> [] ->
   exists r, In r [3; 1; 2; 7]%Z /\ findNextId c = Int (r + 1)).
Proof.
  intro c. apply (findNextId_scan_is_free c [3; 1; 2; 7]%Z);
    [reflexivity | | | reflexivity].
  - repeat constructor; simpl; intuition discriminate.
  - repeat constructor.
Defined.

(** X8 on the container with the keys 1, 3, 4, 2: [delete(3)] then [add]. *)
Lemma delete_then_add_reuses_id_witness :
  let r := delete shuffled (Number (Int 3)) in
  let r' := add (state r) "f" in
  returned r = true /\ nextId (state r) = Int 3 /\
  returned r' = Int 3 /\
  Permutation (keys (state r')) (first_ids 4) /\
  nextId (state r') = Int 5.
Proof.
  apply (delete_then_add_reuses_id shuffled "f" 4 3);
    [exact shuffled_keys | reflexivity | lia].
Defined.

(** X9 on the container with the keys 1, 3, 4, 2: [delete(1)]. *)
Lemma delete_first_id_keeps_cursor_witness :
  let r := delete shuffled (Number (Int 1)) in
  returned r = true /\
  smallest_unused (state r) 1 /\
  nextId (state r) = Int 5 /\
  returned (add (state r) "f") = Int 5.
Proof.
  apply (delete_first_id_keeps_cursor shuffled "f" 4);
    [exact shuffled_keys | reflexivity | lia].
Defined.
End KeysOneToFour.
